(** * Turtle's Adventure: per-tick entity simulation

    A shallow embedding of [turtle_adventure.py].  Every simulated object of
    the source becomes a record, every [update] method a function from the
    world before the tick to the world after it.

    Numbers.  The source computes with Python numbers (ints and floats, [/]
    being true division).  They are embedded as real numbers: [R] with exact
    arithmetic, [( _ ) ** 0.5] as [sqrt], [math.atan2] as [atan2] below.
    Rounding, overflow and signed zeros of the machine representation are
    outside this model.

    State.  A bound method stored in a field ([self.__state = self.moving_left])
    becomes a constructor of an enumeration, dispatched by [call]. *)

From Stdlib Require Import Reals Lra Lia Bool String List.
Import ListNotations.
Open Scope R_scope.

(** ** Comparisons as booleans *)

Definition Rlt_b (a b : R) : bool := if Rlt_dec a b then true else false.
Definition Rle_b (a b : R) : bool := if Rle_dec a b then true else false.
Definition Rneq_b (a b : R) : bool := if Req_dec_T a b then false else true.

(** ** Plane geometry *)

(** [math.atan2 y x]: the angle of the vector [(x, y)], in radians, in
    [(-PI, PI]]; [atan2 0 0 = 0]. *)
Definition atan2 (y x : R) : R :=
  if Rlt_dec 0 x then atan (y / x)
  else if Rlt_dec x 0 then
    (if Rle_dec 0 y then atan (y / x) + PI else atan (y / x) - PI)
  else if Rlt_dec 0 y then PI / 2
  else if Rlt_dec y 0 then - (PI / 2)
  else 0.

(** [(dx ** 2 + dy ** 2) ** 0.5] *)
Definition hypot (dx dy : R) : R := sqrt (dx ^ 2 + dy ^ 2).

(** ** RawTurtle

    The part of the standard library's turtle that [Player] drives: a position
    and a heading.  The heading is kept in radians; the library's conversion
    to degrees in [towards] is undone by the one in [forward], and its
    rounding of the angle is outside the model. *)
Module RawTurtle.

Record t : Type := mk { xcor : R; ycor : R; heading : R }.

Definition setx (val : R) (tu : t) : t := mk val (ycor tu) (heading tu).
Definition sety (val : R) (tu : t) : t := mk (xcor tu) val (heading tu).

Definition towards (tu : t) (x y : R) : R :=
  atan2 (y - ycor tu) (x - xcor tu).

Definition setheading (to_angle : R) (tu : t) : t :=
  mk (xcor tu) (ycor tu) to_angle.

Definition forward (distance : R) (tu : t) : t :=
  mk (xcor tu + distance * cos (heading tu))
     (ycor tu + distance * sin (heading tu))
     (heading tu).

Definition distance (tu : t) (x y : R) : R :=
  hypot (x - xcor tu) (y - ycor tu).

End RawTurtle.

(** ** Waypoint *)
Module Waypoint.

Record t : Type := mk { x : R; y : R; is_active : bool }.

Definition activate (x y : R) (w : t) : t := mk x y true.
Definition deactivate (w : t) : t := mk (x w) (y w) false.
Definition update (w : t) : t := w.

End Waypoint.

(** ** Home *)
Module Home.

Record t : Type := mk { x : R; y : R; size : R }.

Definition update (h : t) : t := h.

Definition contains (h : t) (px py : R) : bool :=
  let x1 := x h - size h / 2 in
  let x2 := x h + size h / 2 in
  let y1 := y h - size h / 2 in
  let y2 := y h + size h / 2 in
  (Rle_b x1 px && Rle_b px x2) && (Rle_b y1 py && Rle_b py y2).

End Home.

(** ** The game coordinator

    [TurtleAdventureGame] owns the waypoint, the home and the player, which
    every element reaches through [self.game]; [screen_width] and
    [screen_height] stand for [canvas.winfo_width()] and
    [canvas.winfo_height()].  [texts] are the banners drawn by
    [canvas.create_text], oldest first. *)
Module Player_state.

Record t : Type := mk { turtle : RawTurtle.t; speed : R }.

End Player_state.

Module Game.

Record t : Type := mk {
  waypoint : Waypoint.t;
  home : Home.t;
  player : Player_state.t;
  screen_width : R;
  screen_height : R;
  stopped : bool;
  texts : list string
}.

Definition set_waypoint (w : Waypoint.t) (g : t) : t :=
  mk w (home g) (player g) (screen_width g) (screen_height g)
     (stopped g) (texts g).

Definition set_player (p : Player_state.t) (g : t) : t :=
  mk (waypoint g) (home g) p (screen_width g) (screen_height g)
     (stopped g) (texts g).

(** Modelled from the spec: [Game.stop] of gamelib, which is not part of
    the sources; "once non-running, all further per-tick update/render
    dispatch stops".  It raises the terminal flag and touches nothing
    else. *)
Definition stop (g : t) : t :=
  mk (waypoint g) (home g) (player g) (screen_width g) (screen_height g)
     true (texts g).

Definition create_text (text : string) (g : t) : t :=
  mk (waypoint g) (home g) (player g) (screen_width g) (screen_height g)
     (stopped g) (texts g ++ [text]).

Definition game_over_win (g : t) : t :=
  create_text "You Win" (stop g).

Definition game_over_lose (g : t) : t :=
  create_text "You Lose" (stop g).

(** The last banner drawn by a tick that ended the game. *)
Definition signalled (text : string) (g : t) : Prop :=
  stopped g = true /\ In text (texts g).

End Game.

(** ** Player *)
Module Player.

Definition x (g : Game.t) : R :=
  RawTurtle.xcor (Player_state.turtle (Game.player g)).
Definition y (g : Game.t) : R :=
  RawTurtle.ycor (Player_state.turtle (Game.player g)).
Definition speed (g : Game.t) : R := Player_state.speed (Game.player g).

Definition set_turtle (tu : RawTurtle.t) (g : Game.t) : Game.t :=
  Game.set_player (Player_state.mk tu (speed g)) g.

Definition update (g : Game.t) : Game.t :=
  let g :=
    if Home.contains (Game.home g) (x g) (y g)
    then Game.game_over_win g else g in
  let turtle := Player_state.turtle (Game.player g) in
  let waypoint := Game.waypoint g in
  if Waypoint.is_active waypoint then
    let turtle :=
      RawTurtle.setheading
        (RawTurtle.towards turtle (Waypoint.x waypoint) (Waypoint.y waypoint))
        turtle in
    let turtle := RawTurtle.forward (speed g) turtle in
    let g := set_turtle turtle g in
    if Rlt_b (RawTurtle.distance turtle (Waypoint.x waypoint)
                (Waypoint.y waypoint)) (speed g)
    then Game.set_waypoint (Waypoint.deactivate waypoint) g
    else g
  else g.

(** [n] ticks of the player with no click in between. *)
Fixpoint run (n : nat) (g : Game.t) : Game.t :=
  match n with
  | O => g
  | S n => update (run n g)
  end.

End Player.

(** ** Construction

    What a constructor call yields: the object, or the exception it raised. *)
Inductive constructed (A : Type) : Type :=
| Built (obj : A)
| Raised (error : string).
Arguments Built {A} obj.
Arguments Raised {A} error.

(** ** Enemy (abstract base) *)
Module Enemy.

(** Modelled from the spec: the [GameElement] base class of gamelib, which
    is not part of the sources; it gives every element its position
    [(x, y)].  [size] and [color] are the fields [Enemy.__init__] adds. *)
Record t : Type := mk { x : R; y : R; size : R; color : string }.

(** [Enemy.__init__(game, size, color)]; [(x0, y0)] is where the base
    class puts a new element. *)
Definition init (x0 y0 : R) (size : R) (color : string) : constructed t :=
  Built (mk x0 y0 size color).

Definition move_to (nx ny : R) (e : t) : t := mk nx ny (size e) (color e).

Definition hits_player (g : Game.t) (e : t) : bool :=
  (Rlt_b (x e - size e / 2) (Player.x g)
     && Rlt_b (Player.x g) (x e + size e / 2))
  &&
  (Rlt_b (y e - size e / 2) (Player.y g)
     && Rlt_b (Player.y g) (y e + size e / 2)).

End Enemy.

(** ** Enemy_walk_random *)
Module Enemy_walk_random.

Inductive method : Type :=
| m_moving_right | m_moving_left | m_moving_up | m_moving_down.

Record t : Type := mk {
  base : Enemy.t;
  state : method;
  state_height : method;
  speed : R
}.

Definition x (e : t) : R := Enemy.x (base e).
Definition y (e : t) : R := Enemy.y (base e).

Definition move_to (nx ny : R) (e : t) : t :=
  mk (Enemy.move_to nx ny (base e)) (state e) (state_height e) (speed e).
Definition set_state (m : method) (e : t) : t :=
  mk (base e) m (state_height e) (speed e).
Definition set_state_height (m : method) (e : t) : t :=
  mk (base e) (state e) m (speed e).

(** [random.randint(6, 10)] is the argument [drawn]. *)
Definition init (x0 y0 : R) (size : R) (color : string) (drawn : R)
  : constructed t :=
  match Enemy.init x0 y0 size color with
  | Built b => Built (mk b m_moving_right m_moving_down drawn)
  | Raised err => Raised err
  end.

Definition moving_right (g : Game.t) (e : t) : t :=
  let e := move_to (x e + speed e) (y e) e in
  if Rlt_b (Game.screen_width g) (x e) then set_state m_moving_left e else e.

Definition moving_left (g : Game.t) (e : t) : t :=
  let e := move_to (x e - speed e) (y e) e in
  if Rlt_b (x e) 0 then set_state m_moving_right e else e.

Definition moving_up (g : Game.t) (e : t) : t :=
  let e := move_to (x e) (y e + speed e) e in
  if Rlt_b (Game.screen_height g) (y e)
  then set_state_height m_moving_down e else e.

Definition moving_down (g : Game.t) (e : t) : t :=
  let e := move_to (x e) (y e - speed e) e in
  if Rlt_b (y e) 0 then set_state_height m_moving_up e else e.

Definition call (m : method) : Game.t -> t -> t :=
  match m with
  | m_moving_right => moving_right
  | m_moving_left => moving_left
  | m_moving_up => moving_up
  | m_moving_down => moving_down
  end.

(** The methods [__state] holds, and those [__state_height] holds. *)
Definition horizontal (m : method) : bool :=
  match m with m_moving_right | m_moving_left => true | _ => false end.
Definition vertical (m : method) : bool :=
  match m with m_moving_up | m_moving_down => true | _ => false end.

(** The moves of [update], before the hit test. *)
Definition advance (g : Game.t) (e : t) : t :=
  let e := move_to (x e + 1) (y e) e in
  let e := move_to (x e) (y e + 1) e in
  let e := call (state e) g e in
  call (state_height e) g e.

Definition update (g : Game.t) (e : t) : Game.t * t :=
  let e := advance g e in
  if Enemy.hits_player g (base e) then (Game.game_over_lose g, e)
  else (g, e).

(** [n] ticks of the walker. *)
Fixpoint run (n : nat) (g : Game.t) (e : t) : t :=
  match n with
  | O => e
  | S n => advance g (run n g e)
  end.

(** Where a walker can be, given the direction it is going: one that goes
    towards the far edge has not passed it, one that comes back has not
    passed the near edge, and neither is further outside than one tick
    carries it. *)
Definition bouncing (g : Game.t) (e : t) : Prop :=
  match state e with
  | m_moving_right => 1 - speed e <= x e <= Game.screen_width g
  | m_moving_left => 0 <= x e <= Game.screen_width g + 1 + speed e
  | _ => False
  end /\
  match state_height e with
  | m_moving_up => 1 - speed e <= y e <= Game.screen_height g
  | m_moving_down => 0 <= y e <= Game.screen_height g + 1 + speed e
  | _ => False
  end.

End Enemy_walk_random.

(** ** Exceptions of the arithmetic

    A call either returns a value or raises; [truediv a b] is Python's
    [a / b], which raises [ZeroDivisionError] when [b] is zero. *)
Module Python.

Inductive exception : Type := ZeroDivisionError.

Inductive result (A : Type) : Type :=
| Return (value : A)
| Raise (exn : exception).
Arguments Return {A} value.
Arguments Raise {A} exn.

Definition bind {A B : Type} (c : result A) (k : A -> result B) : result B :=
  match c with
  | Return a => k a
  | Raise exn => Raise exn
  end.

Definition truediv (a b : R) : result R :=
  if Rneq_b b 0 then Return (a / b) else Raise ZeroDivisionError.

End Python.

(** ** Chasing_Enemy *)
Module Chasing_Enemy.

Record t : Type := mk { base : Enemy.t }.

Definition x (e : t) : R := Enemy.x (base e).
Definition y (e : t) : R := Enemy.y (base e).

Definition init (x0 y0 : R) (size : R) (color : string) : constructed t :=
  match Enemy.init x0 y0 size color with
  | Built b => Built (mk b)
  | Raised err => Raised err
  end.

Definition chasing_to_player (g : Game.t) (e : t) : t :=
  let direction_x := Player.x g - x e in
  let direction_y := Player.y g - y e in
  let mag := hypot direction_x direction_y in
  let '(direction_x, direction_y) :=
    if Rneq_b mag 0 then (direction_x / mag, direction_y / mag)
    else (direction_x, direction_y) in
  let e := mk (Enemy.move_to (x e + direction_x * 1.2) (y e) (base e)) in
  mk (Enemy.move_to (x e) (y e + direction_y * 1.2) (base e)).

Definition update (g : Game.t) (e : t) : Game.t * t :=
  let e := chasing_to_player g e in
  if Enemy.hits_player g (base e) then (Game.game_over_lose g, e)
  else (g, e).

(** [n] ticks of the chaser against a player who stands still. *)
Fixpoint run (n : nat) (g : Game.t) (e : t) : t :=
  match n with
  | O => e
  | S n => chasing_to_player g (run n g e)
  end.

(** The distance from the chaser to the player. *)
Definition distance (g : Game.t) (e : t) : R :=
  hypot (Player.x g - x e) (Player.y g - y e).

(** [chasing_to_player] and [update] as Python runs them, every [/=] being
    a division that can raise.  Over [R] a quotient by zero is a number, so
    it is here, and not in the definition above, that the test [mag != 0]
    decides between returning and raising; [chasing_to_player] above is the
    enemy that the call returns. *)
Definition chasing_to_player_checked (g : Game.t) (e : t) : Python.result t :=
  let direction_x := Player.x g - x e in
  let direction_y := Player.y g - y e in
  let mag := hypot direction_x direction_y in
  Python.bind
    (if Rneq_b mag 0 then
       Python.bind (Python.truediv direction_x mag) (fun direction_x =>
       Python.bind (Python.truediv direction_y mag) (fun direction_y =>
       Python.Return (direction_x, direction_y)))
     else Python.Return (direction_x, direction_y))
    (fun '(direction_x, direction_y) =>
       let e := mk (Enemy.move_to (x e + direction_x * 1.2) (y e) (base e)) in
       Python.Return
         (mk (Enemy.move_to (x e) (y e + direction_y * 1.2) (base e)))).

Definition update_checked (g : Game.t) (e : t) : Python.result (Game.t * t) :=
  Python.bind (chasing_to_player_checked g e) (fun e =>
  Python.Return
    (if Enemy.hits_player g (base e) then (Game.game_over_lose g, e)
     else (g, e))).

End Chasing_Enemy.

(** ** FencingEnemy *)
Module FencingEnemy.

Inductive method : Type :=
| m_moving_right | m_moving_down | m_moving_left | m_moving_up.

Record t : Type := mk { base : Enemy.t; state : method; speed : R }.

Definition x (e : t) : R := Enemy.x (base e).
Definition y (e : t) : R := Enemy.y (base e).

Definition move_to (nx ny : R) (e : t) : t :=
  mk (Enemy.move_to nx ny (base e)) (state e) (speed e).
Definition set_state (m : method) (e : t) : t :=
  mk (base e) m (speed e).

Definition init (x0 y0 : R) (size : R) (color : string) (speed : R)
  : constructed t :=
  match Enemy.init x0 y0 size color with
  | Built b => Built (mk b m_moving_right speed)
  | Raised err => Raised err
  end.

Definition moving_right (g : Game.t) (e : t) : t :=
  if Rlt_b (x e) (Home.x (Game.home g) + Home.size (Game.home g) / 2)
  then move_to (x e + speed e) (y e) e
  else set_state m_moving_down e.

Definition moving_down (g : Game.t) (e : t) : t :=
  if Rlt_b (y e) (Home.y (Game.home g) + Home.size (Game.home g) / 2)
  then move_to (x e) (y e + speed e) e
  else set_state m_moving_left e.

Definition moving_left (g : Game.t) (e : t) : t :=
  if Rlt_b (Home.x (Game.home g) - Home.size (Game.home g) / 2) (x e)
  then move_to (x e - speed e) (y e) e
  else set_state m_moving_up e.

Definition moving_up (g : Game.t) (e : t) : t :=
  if Rlt_b (Home.y (Game.home g) - Home.size (Game.home g) / 2) (y e)
  then move_to (x e) (y e - speed e) e
  else set_state m_moving_right e.

Definition call (m : method) : Game.t -> t -> t :=
  match m with
  | m_moving_right => moving_right
  | m_moving_down => moving_down
  | m_moving_left => moving_left
  | m_moving_up => moving_up
  end.

(** The state machine step of [update], before the hit test. *)
Definition advance (g : Game.t) (e : t) : t := call (state e) g e.

Definition update (g : Game.t) (e : t) : Game.t * t :=
  let e := advance g e in
  if Enemy.hits_player g (base e) then (Game.game_over_lose g, e)
  else (g, e).

(** [n] ticks against a game whose home stays where it is. *)
Fixpoint run (n : nat) (g : Game.t) (e : t) : t :=
  match n with
  | O => e
  | S n => advance g (run n g e)
  end.

Definition method_eqb (a b : method) : bool :=
  match a, b with
  | m_moving_right, m_moving_right
  | m_moving_down, m_moving_down
  | m_moving_left, m_moving_left
  | m_moving_up, m_moving_up => true
  | _, _ => false
  end.

(** A tick is a transition when it leaves the enemy in another state. *)
Definition is_transition (g : Game.t) (e : t) : bool :=
  negb (method_eqb (state e) (state (advance g e))).

(** How many of the first [n] ticks were transitions, and how many were
    not. *)
Fixpoint transitions (n : nat) (g : Game.t) (e : t) : nat :=
  match n with
  | O => O
  | S n =>
      (transitions n g e + if is_transition g (run n g e) then 1 else 0)%nat
  end.

Fixpoint moves (n : nat) (g : Game.t) (e : t) : nat :=
  match n with
  | O => O
  | S n =>
      (moves n g e + if is_transition g (run n g e) then 0 else 1)%nat
  end.

(** The successor of a state in the patrol cycle. *)
Definition next (m : method) : method :=
  match m with
  | m_moving_right => m_moving_down
  | m_moving_down => m_moving_left
  | m_moving_left => m_moving_up
  | m_moving_up => m_moving_right
  end.

(** The bound a state walks towards, and whether the coordinate that state
    moves has reached or passed it. *)
Definition reached (g : Game.t) (e : t) : Prop :=
  let h := Game.home g in
  match state e with
  | m_moving_right => Home.x h + Home.size h / 2 <= x e
  | m_moving_down => Home.y h + Home.size h / 2 <= y e
  | m_moving_left => x e <= Home.x h - Home.size h / 2
  | m_moving_up => y e <= Home.y h - Home.size h / 2
  end.

(** The displacement of one step in a state. *)
Definition step_x (e : t) : R :=
  match state e with
  | m_moving_right => speed e
  | m_moving_left => - speed e
  | _ => 0
  end.
Definition step_y (e : t) : R :=
  match state e with
  | m_moving_down => speed e
  | m_moving_up => - speed e
  | _ => 0
  end.

(** A lap of the patrol, started at [e0] in state moving-right: after [t]
    transitions and [m] moving ticks the enemy [e] is in the [t]-th state of
    the cycle and has covered the sides behind it. *)
Definition lap (g : Game.t) (e0 e : t) (t m : nat) : Prop :=
  let h := Game.home g in
  let side := Home.size h in
  let travelled := INR m * speed e0 in
  speed e = speed e0 /\
  match t with
  | 0%nat =>
      state e = m_moving_right /\
      travelled = x e - x e0 /\ y e = y e0
  | 1%nat =>
      state e = m_moving_down /\
      Home.x h + side / 2 <= x e /\
      side + (y e - y e0) <= travelled
  | 2%nat =>
      state e = m_moving_left /\
      Home.y h + side / 2 <= y e /\
      2 * side + (Home.x h + side / 2 - x e) <= travelled
  | 3%nat =>
      state e = m_moving_up /\
      x e <= Home.x h - side / 2 /\
      3 * side + (Home.y h + side / 2 - y e) <= travelled
  | _ => 4 * side <= travelled
  end.

(** Where a patrolling fencer is, given its state: on the side of the square
    that the state walks along, at most one step past either end. *)
Definition on_side (g : Game.t) (e : t) : Prop :=
  let h := Game.home g in
  let left := Home.x h - Home.size h / 2 in
  let right := Home.x h + Home.size h / 2 in
  let top := Home.y h - Home.size h / 2 in
  let bottom := Home.y h + Home.size h / 2 in
  let s := speed e in
  match state e with
  | m_moving_right => left - s < x e < right + s /\ top - s < y e <= top
  | m_moving_down => right <= x e < right + s /\ top - s < y e < bottom + s
  | m_moving_left => left - s < x e < right + s /\ bottom <= y e < bottom + s
  | m_moving_up => left - s < x e <= left /\ top - s < y e < bottom + s
  end.

End FencingEnemy.

(** ** Stealth_Circle *)
Module Stealth_Circle.

Record t : Type := mk {
  base : Enemy.t;
  speed : R;
  detection : R;
  detected : bool;
  fill : string          (* the fill of the canvas item [enemy_id1] *)
}.

Definition x (e : t) : R := Enemy.x (base e).
Definition y (e : t) : R := Enemy.y (base e).

Definition set_detected (b : bool) (e : t) : t :=
  mk (base e) (speed e) (detection e) b (fill e).
Definition itemconfig (f : string) (e : t) : t :=
  mk (base e) (speed e) (detection e) (detected e) f.

Definition init (x0 y0 : R) (size : R) (color : string) (drawn : R)
  : constructed t :=
  match Enemy.init x0 y0 size color with
  | Built b => Built (mk b drawn 100 false color)
  | Raised err => Raised err
  end.

Definition distance (g : Game.t) (e : t) : R :=
  hypot (Player.x g - x e) (Player.y g - y e).

Definition is_near_by (g : Game.t) (e : t) : bool :=
  Rlt_b (distance g e) (detection e).

Definition update (g : Game.t) (e : t) : Game.t * t :=
  let e :=
    if is_near_by g e && negb (detected e)
    then itemconfig "red" (set_detected true e) else e in
  let e :=
    if detected e && negb (is_near_by g e)
    then itemconfig "white" (set_detected false e) else e in
  if Enemy.hits_player g (base e) then (Game.game_over_lose g, e)
  else (g, e).

(** The canvas item shows the alert state: red when alerted, white when
    dormant. *)
Definition lit (e : t) : Prop :=
  fill e = if detected e then "red"%string else "white"%string.

End Stealth_Circle.

(** ** EnemyGenerator: the fencers *)
Module EnemyGenerator.

(** One pass of the loop of [create_fencing_enemy]: a yellow fencer of size
    10 put on the corner of home. *)
Definition fencer_at_corner (g : Game.t) (speed : R)
  : constructed FencingEnemy.t :=
  match FencingEnemy.init 0 0 10 "yellow" speed with
  | Built e =>
      Built (FencingEnemy.move_to
               (Home.x (Game.home g) - Home.size (Game.home g) / 2)
               (Home.y (Game.home g) - Home.size (Game.home g) / 2) e)
  | Raised err => Raised err
  end.

Definition create_fencing_enemy (g : Game.t)
  : list (constructed FencingEnemy.t) :=
  [fencer_at_corner g 1; fencer_at_corner g 3; fencer_at_corner g 4].

(** The random enemies.  [rand] is the sequence of numbers that the calls
    of [random.randint] return, in the order in which the calls are made;
    [k] is the number of calls made before. *)

(** [position]: two draws, for x and for y. *)
Definition position (rand : nat -> Z) (k : nat) (b : Enemy.t) : Enemy.t :=
  Enemy.move_to (IZR (rand k)) (IZR (rand (S k))) b.

(** One pass of the loop of [create_random_enemy]: the constructor draws
    the speed, [position] draws the place. *)
Definition random_enemy (rand : nat -> Z) (k : nat)
  : constructed Enemy_walk_random.t :=
  match Enemy_walk_random.init 0 0 20 "Blue" (IZR (rand k)) with
  | Built e =>
      Built (Enemy_walk_random.mk
               (position rand (S k) (Enemy_walk_random.base e))
               (Enemy_walk_random.state e)
               (Enemy_walk_random.state_height e)
               (Enemy_walk_random.speed e))
  | Raised err => Raised err
  end.

Definition create_random_enemy (rand : nat -> Z)
  : list (constructed Enemy_walk_random.t) :=
  List.map (fun i => random_enemy rand (3 * i)) (List.seq 0 5).

(** One pass of the loop of [create_chasing_enemy]. *)
Definition chasing_enemy (rand : nat -> Z) (k : nat)
  : constructed Chasing_Enemy.t :=
  match Chasing_Enemy.init 0 0 20 "red" with
  | Built e => Built (Chasing_Enemy.mk (position rand k (Chasing_Enemy.base e)))
  | Raised err => Raised err
  end.

Definition create_chasing_enemy (rand : nat -> Z)
  : list (constructed Chasing_Enemy.t) :=
  List.map (fun i => chasing_enemy rand (2 * i)) (List.seq 0 4).

(** One pass of the loop of [create_stealth_circle]. *)
Definition stealth_circle (rand : nat -> Z) (k : nat)
  : constructed Stealth_Circle.t :=
  match Stealth_Circle.init 0 0 50 "white" (IZR (rand k)) with
  | Built e =>
      Built (Stealth_Circle.mk
               (position rand (S k) (Stealth_Circle.base e))
               (Stealth_Circle.speed e) (Stealth_Circle.detection e)
               (Stealth_Circle.detected e) (Stealth_Circle.fill e))
  | Raised err => Raised err
  end.

Definition create_stealth_circle (rand : nat -> Z)
  : list (constructed Stealth_Circle.t) :=
  List.map (fun i => stealth_circle rand (3 * i)) (List.seq 0 5).

(** What [random.randint] promises for the draws of [create_random_enemy]:
    speeds from 6 to 10, x from 200 to 600, y from 100 to 500. *)
Definition walker_draws (rand : nat -> Z) : Prop :=
  forall i : nat,
    (6 <= rand (3 * i)%nat <= 10)%Z /\
    (200 <= rand (S (3 * i)) <= 600)%Z /\
    (100 <= rand (S (S (3 * i))) <= 500)%Z.

(** Every object of a batch was built and has the property [P]. *)
Definition all_built {A : Type} (P : A -> Prop) (l : list (constructed A))
  : Prop :=
  List.Forall (fun c => exists e : A, c = Built e /\ P e) l.

End EnemyGenerator.


(** ** The frame of an enemy's tick

    What the tick of an enemy, taking the world [g] to [g'] and the enemy's
    base [b] to [b'], leaves alone: the player, the home, the waypoint, and
    the enemy's own size and color; and the loss is signalled after it
    exactly when the moved enemy hits the player, or was signalled before. *)
Definition enemy_tick_frame (g g' : Game.t) (b b' : Enemy.t) : Prop :=
  Game.player g' = Game.player g /\
  Game.home g' = Game.home g /\
  Game.waypoint g' = Game.waypoint g /\
  Enemy.size b' = Enemy.size b /\
  Enemy.color b' = Enemy.color b /\
  (Game.signalled "You Lose" g' <->
     Enemy.hits_player g b' = true \/ Game.signalled "You Lose" g).

(** ** TurtleScreen.setworldcoordinates

    The call of the standard library's turtle that [init_game] makes: the new
    scales are the size of the canvas divided by the spans of the
    coordinates, so the call raises when a span is zero. *)
Module TurtleScreen.

Definition setworldcoordinates (canvwidth canvheight llx lly urx ury : R)
  : Python.result (R * R) :=
  let xspan := urx - llx in
  let yspan := ury - lly in
  Python.bind (Python.truediv canvwidth xspan) (fun xscale =>
  Python.bind (Python.truediv canvheight yspan) (fun yscale =>
  Python.Return (xscale, yscale))).

End TurtleScreen.

(** ** TurtleAdventureGame.init_game

    The world a new game starts with, for a screen of the given (integer)
    size, or the exception [init_game] raises: the world coordinates are set
    first, then come an inactive waypoint, the home, and the player with the
    default speed; [//] is floor division.  [canvwidth] and [canvheight] are
    what the turtle screen takes for the size of its canvas at that call. *)
Module TurtleAdventureGame.

Definition init_game (canvwidth canvheight : R)
  (screen_width screen_height : Z) : Python.result Game.t :=
  Python.bind
    (TurtleScreen.setworldcoordinates canvwidth canvheight
       0 (IZR (screen_height - 1)) (IZR (screen_width - 1)) 0)
    (fun _ =>
       Python.Return
         (Game.mk
            (Waypoint.mk 0 0 false)
            (Home.mk (IZR (screen_width - 100)) (IZR (screen_height / 2)) 20)
            (Player_state.mk
               (RawTurtle.mk 50 (IZR (screen_height / 2)) 0) 5)
            (IZR screen_width) (IZR screen_height) false [])).

(** The handler that [init_game] binds to a click at [(x, y)]. *)
Definition on_click (x y : R) (g : Game.t) : Game.t :=
  Game.set_waypoint (Waypoint.activate x y (Game.waypoint g)) g.

End TurtleAdventureGame.

(** ** Sample worlds *)
Module Sample.

(** A 800 x 500 playfield with the player's turtle at [(px, py)]. *)
Definition world (px py speed : R) (w : Waypoint.t) (h : Home.t) : Game.t :=
  Game.mk w h (Player_state.mk (RawTurtle.mk px py 0) speed) 800 500 false [].

(** The player stands on the center of home; a click has set the waypoint
    ten units to the east. *)
Definition at_home : Game.t :=
  world 0 0 5 (Waypoint.mk 10 0 true) (Home.mk 0 0 20).


(** No click yet. *)
Definition idle : Game.t :=
  world 50 250 5 (Waypoint.mk 0 0 false) (Home.mk 700 250 20).

(** An enemy whose hit-box has the player of [idle] on its left edge. *)
Definition grazing : Enemy.t := Enemy.mk 52 250 4 "red".

(** A walker about to leave the playfield on the right. *)
Definition walker : Enemy_walk_random.t :=
  Enemy_walk_random.mk (Enemy.mk 795 100 20 "Blue")
    Enemy_walk_random.m_moving_right Enemy_walk_random.m_moving_down 6.

(** A chaser three units left of and four units above the player of
    [idle], and one on the very spot of the player. *)
Definition chaser : Chasing_Enemy.t :=
  Chasing_Enemy.mk (Enemy.mk 47 246 20 "red").
Definition chaser_on_player : Chasing_Enemy.t :=
  Chasing_Enemy.mk (Enemy.mk 50 250 20 "red").

(** A dormant sentinel fifty units from the player of [idle]. *)
Definition sentinel : Stealth_Circle.t :=
  Stealth_Circle.mk (Enemy.mk 50 300 50 "white") 6 100 false "white".

(** A home of side 2 and a fencer of speed 2 on its corner. *)
Definition small_home : Game.t :=
  world 50 250 5 (Waypoint.mk 0 0 false) (Home.mk 700 250 2).
Definition fencer : FencingEnemy.t :=
  FencingEnemy.mk (Enemy.mk 699 249 10 "yellow")
    FencingEnemy.m_moving_right 2.

(** The player of [idle] after a click on the center of home. *)
Definition heading_home : Game.t :=
  world 50 250 5 (Waypoint.mk 700 250 true) (Home.mk 700 250 20).

(** A click on the very spot the player stands on. *)
Definition on_waypoint : Game.t :=
  world 50 250 5 (Waypoint.mk 50 250 true) (Home.mk 700 250 20).

(** The player inside home and inside the hit-box of the fencer that
    stands on the corner of home. *)
Definition home_corner : Game.t :=
  world 692 242 5 (Waypoint.mk 0 0 false) (Home.mk 700 250 20).
Definition corner_fencer : FencingEnemy.t :=
  FencingEnemy.mk (Enemy.mk 690 240 10 "yellow")
    FencingEnemy.m_moving_right 1.

(** A walker as [create_random_enemy] places it. *)
Definition fresh_walker : Enemy_walk_random.t :=
  Enemy_walk_random.mk (Enemy.mk 200 100 20 "Blue")
    Enemy_walk_random.m_moving_right Enemy_walk_random.m_moving_down 6.

(** Draws within the ranges of the generator. *)
Definition draws (k : nat) : Z :=
  match Nat.modulo k 3 with
  | 0%nat => 6%Z
  | 1%nat => 200%Z
  | _ => 100%Z
  end.

(** A fencer that cannot move, and an enemy without a hit-box. *)
Definition frozen_fencer : FencingEnemy.t :=
  FencingEnemy.mk (Enemy.mk 690 240 10 "yellow")
    FencingEnemy.m_moving_right 0.
Definition hollow : Enemy.t := Enemy.mk 50 250 0 "red".

(** The player one step short of home, walking in. *)
Definition at_the_door : Game.t :=
  world 685 250 5 (Waypoint.mk 700 250 true) (Home.mk 700 250 20).

(** An alerted sentinel on the player of [idle]. *)
Definition sentinel_on_player : Stealth_Circle.t :=
  Stealth_Circle.mk (Enemy.mk 50 250 50 "white") 6 100 true "red".

End Sample.


(** * Properties *)

(** ** Boolean comparisons reflect the order of [R] *)

Lemma Rlt_b_true (a b : R) : Rlt_b a b = true <-> a < b.
Proof. unfold Rlt_b; destruct (Rlt_dec a b); split; intros; easy. Qed.

Lemma Rlt_b_false (a b : R) : Rlt_b a b = false <-> b <= a.
Proof.
  unfold Rlt_b; destruct (Rlt_dec a b); split; intros; try easy; lra.
Qed.

Lemma Rle_b_true (a b : R) : Rle_b a b = true <-> a <= b.
Proof. unfold Rle_b; destruct (Rle_dec a b); split; intros; easy. Qed.

Lemma Rle_b_false (a b : R) : Rle_b a b = false <-> b < a.
Proof.
  unfold Rle_b; destruct (Rle_dec a b); split; intros; try easy; lra.
Qed.

Lemma Rneq_b_true (a b : R) : Rneq_b a b = true <-> a <> b.
Proof. unfold Rneq_b; destruct (Req_dec_T a b); split; intros; easy. Qed.

Lemma Rneq_b_false (a b : R) : Rneq_b a b = false <-> a = b.
Proof.
  unfold Rneq_b; destruct (Req_dec_T a b); split; intros; try easy.
Qed.

Lemma Rabs_le_iff (a b : R) : Rabs a <= b <-> - b <= a <= b.
Proof. unfold Rabs; destruct (Rcase_abs a); lra. Qed.

Lemma Rabs_gt_iff (a b : R) : b < Rabs a <-> a < - b \/ b < a.
Proof. unfold Rabs; destruct (Rcase_abs a); lra. Qed.

(** Decide every comparison of the goal whose operands are known. *)
Ltac Rcompare :=
  repeat match goal with
    | |- context [Rlt_b ?a ?b] =>
        first [ rewrite (proj2 (Rlt_b_true a b)) by lra
              | rewrite (proj2 (Rlt_b_false a b)) by lra ]
    | |- context [Rle_b ?a ?b] =>
        first [ rewrite (proj2 (Rle_b_true a b)) by lra
              | rewrite (proj2 (Rle_b_false a b)) by lra ]
    end.

(** ** Home.contains *)

(** C4.  [Home.contains h px py] is true iff [px] lies within [size/2] of the
    center's x and [py] within [size/2] of the center's y, the boundary
    included; it is false iff either coordinate is farther than [size/2] from
    the center. *)
Theorem Home_contains_iff (h : Home.t) (px py : R) :
  (Home.contains h px py = true <->
     Rabs (px - Home.x h) <= Home.size h / 2 /\
     Rabs (py - Home.y h) <= Home.size h / 2)
  /\
  (Home.contains h px py = false <->
     Home.size h / 2 < Rabs (px - Home.x h) \/
     Home.size h / 2 < Rabs (py - Home.y h)).
Proof.
  assert (T : Home.contains h px py = true <->
     Rabs (px - Home.x h) <= Home.size h / 2 /\
     Rabs (py - Home.y h) <= Home.size h / 2).
  { unfold Home.contains; cbv zeta.
    rewrite !andb_true_iff, !Rle_b_true, !Rabs_le_iff. lra. }
  split; [exact T|].
  rewrite <- not_true_iff_false, T, !Rabs_le_iff, !Rabs_gt_iff. lra.
Qed.

(** ** Enemy.hits_player *)

(** C3.  [hits_player] is true iff the player's x is strictly between
    [x - size/2] and [x + size/2] and the player's y strictly between
    [y - size/2] and [y + size/2]; a player with a coordinate exactly on the
    boundary of the hit-box is not hit. *)
Theorem Enemy_hits_player_iff (g : Game.t) (e : Enemy.t) :
  (Enemy.hits_player g e = true <->
     (Enemy.x e - Enemy.size e / 2 < Player.x g < Enemy.x e + Enemy.size e / 2)
     /\
     (Enemy.y e - Enemy.size e / 2 < Player.y g < Enemy.y e + Enemy.size e / 2))
  /\
  (Player.x g = Enemy.x e - Enemy.size e / 2 \/
   Player.x g = Enemy.x e + Enemy.size e / 2 \/
   Player.y g = Enemy.y e - Enemy.size e / 2 \/
   Player.y g = Enemy.y e + Enemy.size e / 2 ->
   Enemy.hits_player g e = false).
Proof.
  assert (T : Enemy.hits_player g e = true <->
     (Enemy.x e - Enemy.size e / 2 < Player.x g < Enemy.x e + Enemy.size e / 2)
     /\
     (Enemy.y e - Enemy.size e / 2 < Player.y g < Enemy.y e + Enemy.size e / 2)).
  { unfold Enemy.hits_player.
    rewrite !andb_true_iff, !Rlt_b_true. tauto. }
  split; [exact T|].
  intros B. apply not_true_iff_false. rewrite T.
  intros [[H1 H2] [H3 H4]].
  destruct B as [B | [B | [B | B]]]; lra.
Qed.

(** ** Plane geometry *)

Lemma hypot_nonneg (dx dy : R) : 0 <= hypot dx dy.
Proof. apply sqrt_pos. Qed.

Lemma hypot_sqr (dx dy : R) : hypot dx dy * hypot dx dy = dx ^ 2 + dy ^ 2.
Proof. apply sqrt_sqrt. nra. Qed.

Lemma hypot_unique (dx dy r : R) :
  0 <= r -> r * r = dx ^ 2 + dy ^ 2 -> hypot dx dy = r.
Proof. intros Hr Hs. apply sqrt_lem_1; [nra | assumption | assumption]. Qed.

Lemma hypot_eq_0 (dx dy : R) : hypot dx dy = 0 <-> dx = 0 /\ dy = 0.
Proof.
  split.
  - intros H. pose proof (hypot_sqr dx dy) as S. rewrite H in S. nra.
  - intros [-> ->]. apply hypot_unique; lra.
Qed.

Lemma hypot_pos (dx dy : R) : dx <> 0 \/ dy <> 0 -> 0 < hypot dx dy.
Proof.
  intros H. pose proof (hypot_nonneg dx dy) as N.
  destruct (Req_dec (hypot dx dy) 0) as [Z | Z]; [|lra].
  apply hypot_eq_0 in Z. lra.
Qed.


Lemma sqrt_slope (x y : R) :
  0 < x -> sqrt (1 + (y / x)²) = hypot x y / x.
Proof.
  intros Hx.
  pose proof (hypot_sqr x y) as S. pose proof (hypot_nonneg x y) as N.
  apply sqrt_lem_1.
  - unfold Rsqr. nra.
  - apply Rmult_le_pos; [assumption|]. left. now apply Rinv_0_lt_compat.
  - unfold Rsqr. field_simplify_eq; [|lra]. nra.
Qed.

Lemma slope_opp (x y : R) : x < 0 -> y / x = (- y) / (- x).
Proof. intros Hx. field. lra. Qed.

Lemma hypot_opp (x y : R) : hypot (- x) (- y) = hypot x y.
Proof. unfold hypot. f_equal. ring. Qed.

Lemma cos_sin_atan_slope (x y : R) :
  0 < x ->
  cos (atan (y / x)) = x / hypot x y /\ sin (atan (y / x)) = y / hypot x y.
Proof.
  intros Hx.
  assert (P : 0 < hypot x y) by (apply hypot_pos; lra).
  rewrite cos_atan, sin_atan, sqrt_slope by assumption.
  split; field; lra.
Qed.

Lemma cos_sin_atan2 (x y : R) :
  x <> 0 \/ y <> 0 ->
  cos (atan2 y x) = x / hypot x y /\ sin (atan2 y x) = y / hypot x y.
Proof.
  intros NZ. assert (P : 0 < hypot x y) by now apply hypot_pos.
  unfold atan2.
  destruct (Rlt_dec 0 x) as [Hx | Hx]; [now apply cos_sin_atan_slope|].
  destruct (Rlt_dec x 0) as [Hx' | Hx'].
  - assert (Hn : 0 < - x) by lra.
    destruct (cos_sin_atan_slope (- x) (- y) Hn) as [C S].
    rewrite <- slope_opp, hypot_opp in C, S by assumption.
    destruct (Rle_dec 0 y).
    + rewrite neg_cos, neg_sin, C, S. split; field; lra.
    + rewrite cos_minus, sin_minus, cos_PI, sin_PI, C, S. split; field; lra.
  - assert (x = 0) by lra; subst x.
    assert (H2 : hypot 0 y * hypot 0 y = y * y)
      by (rewrite hypot_sqr; ring).
    destruct (Rlt_dec 0 y) as [Hy | Hy].
    + assert (E : hypot 0 y = y) by nra.
      rewrite cos_PI2, sin_PI2, E. split; field; lra.
    + destruct (Rlt_dec y 0) as [Hy' | Hy']; [|lra].
      assert (E : hypot 0 y = - y) by nra.
      rewrite cos_neg, sin_neg, cos_PI2, sin_PI2, E. split; field; lra.
Qed.

(** ** Player.update *)

Section PlayerTick.

Variable g : Game.t.

Let tu := Player_state.turtle (Game.player g).
Let wx := Waypoint.x (Game.waypoint g).
Let wy := Waypoint.y (Game.waypoint g).

Lemma Player_win_keeps_world :
  Game.waypoint (Game.game_over_win g) = Game.waypoint g /\
  Game.player (Game.game_over_win g) = Game.player g /\
  Game.home (Game.game_over_win g) = Game.home g.
Proof. repeat split. Qed.

(** With an active waypoint the turtle is turned towards it and moved
    forward, whether or not the player is home. *)
Lemma Player_update_active_eq :
  Waypoint.is_active (Game.waypoint g) = true ->
  Player.update g =
  let g1 :=
    if Home.contains (Game.home g) (Player.x g) (Player.y g)
    then Game.game_over_win g else g in
  let tu' :=
    RawTurtle.forward (Player.speed g)
      (RawTurtle.setheading (RawTurtle.towards tu wx wy) tu) in
  let g2 := Player.set_turtle tu' g1 in
  if Rlt_b (RawTurtle.distance tu' wx wy) (Player.speed g)
  then Game.set_waypoint (Waypoint.deactivate (Game.waypoint g)) g2
  else g2.
Proof.
  intros A. unfold Player.update.
  destruct (Home.contains (Game.home g) (Player.x g) (Player.y g));
    cbv zeta.
  - change (Game.waypoint (Game.game_over_win g)) with (Game.waypoint g).
    rewrite A. reflexivity.
  - rewrite A. reflexivity.
Qed.

Lemma Player_update_turtle_active :
  Waypoint.is_active (Game.waypoint g) = true ->
  Player_state.turtle (Game.player (Player.update g)) =
  RawTurtle.forward (Player.speed g)
    (RawTurtle.setheading (RawTurtle.towards tu wx wy) tu).
Proof.
  intros A. rewrite (Player_update_active_eq A). cbv zeta.
  destruct (Rlt_b _ _); reflexivity.
Qed.

Lemma Player_update_waypoint_active :
  Waypoint.is_active (Game.waypoint g) = true ->
  Waypoint.is_active (Game.waypoint (Player.update g)) =
  negb (Rlt_b (RawTurtle.distance
                 (Player_state.turtle (Game.player (Player.update g))) wx wy)
              (Player.speed g)).
Proof.
  intros A. rewrite (Player_update_turtle_active A).
  rewrite (Player_update_active_eq A). cbv zeta.
  destruct (Rlt_b _ _); [reflexivity|].
  destruct (Home.contains _ _ _); exact A.
Qed.

Lemma Player_update_inactive :
  Waypoint.is_active (Game.waypoint g) = false ->
  Game.player (Player.update g) = Game.player g /\
  Game.waypoint (Player.update g) = Game.waypoint g.
Proof.
  intros A. unfold Player.update.
  destruct (Home.contains (Game.home g) (Player.x g) (Player.y g));
    cbn; rewrite A; split; reflexivity.
Qed.

Lemma Player_update_signals_win :
  Home.contains (Game.home g) (Player.x g) (Player.y g) = true ->
  Game.signalled "You Win" (Player.update g).
Proof.
  intros H. unfold Player.update. rewrite H.
  destruct (Waypoint.is_active (Game.waypoint (Game.game_over_win g)));
    [match goal with |- context [Rlt_b ?a ?b] => destruct (Rlt_b a b) end|];
    (split; [reflexivity | cbn; apply in_or_app; right; now left]).
Qed.

End PlayerTick.

Lemma atan2_east (x : R) : 0 < x -> atan2 0 x = 0.
Proof.
  intros Hx. unfold atan2. destruct (Rlt_dec 0 x); [|lra].
  replace (0 / x) with 0 by (field; lra). apply atan_0.
Qed.



(** C1, as the specification words it, at a sample world: the player stands
    in home with an active waypoint ten units east; the tick signals the win
    and still moves the player five units. *)
Lemma Player_update_at_home_counterexample :
  Home.contains (Game.home Sample.at_home)
    (Player.x Sample.at_home) (Player.y Sample.at_home) = true /\
  Waypoint.is_active (Game.waypoint Sample.at_home) = true /\
  Player.x Sample.at_home = 0 /\
  Player.x (Player.update Sample.at_home) = 5 /\
  Player.x (Player.update Sample.at_home) <> Player.x Sample.at_home.
Proof.
  assert (X : Player.x (Player.update Sample.at_home) = 5).
  { unfold Player.x.
    rewrite (Player_update_turtle_active Sample.at_home eq_refl).
    unfold RawTurtle.towards. cbn.
    replace (0 - 0) with 0 by lra. replace (10 - 0) with 10 by lra.
    rewrite atan2_east by lra. rewrite cos_0. lra. }
  repeat split.
  - unfold Home.contains; cbn. Rcompare. reflexivity.
  - exact X.
  - rewrite X. cbn. lra.
Qed.

(** C1, amended.  When the player is in home the tick signals the win, and
    the waypoint is then served as on any other tick: an active one moves the
    player by [speed] along the heading towards it, an inactive one leaves
    the player in place. *)
Theorem Player_update_at_home (g : Game.t) :
  Home.contains (Game.home g) (Player.x g) (Player.y g) = true ->
  let heading :=
    RawTurtle.towards (Player_state.turtle (Game.player g))
      (Waypoint.x (Game.waypoint g)) (Waypoint.y (Game.waypoint g)) in
  Game.signalled "You Win" (Player.update g) /\
  (Waypoint.is_active (Game.waypoint g) = true ->
     Player.x (Player.update g) = Player.x g + Player.speed g * cos heading /\
     Player.y (Player.update g) = Player.y g + Player.speed g * sin heading)
  /\
  (Waypoint.is_active (Game.waypoint g) = false ->
     Player.x (Player.update g) = Player.x g /\
     Player.y (Player.update g) = Player.y g).
Proof.
  intros H. cbv zeta. split; [now apply Player_update_signals_win|].
  split.
  - intros A. unfold Player.x at 1, Player.y at 1.
    rewrite (Player_update_turtle_active g A). split; reflexivity.
  - intros A. destruct (Player_update_inactive g A) as [P _].
    unfold Player.x, Player.y. rewrite P. auto.
Qed.

Lemma Player_update_at_home_witness :
  Game.signalled "You Win" (Player.update Sample.at_home).
Proof.
  apply (Player_update_at_home Sample.at_home).
  unfold Home.contains; cbn. Rcompare. reflexivity.
Defined.

Lemma Enemy_hits_player_witness :
  Enemy.hits_player Sample.idle Sample.grazing = false.
Proof.
  apply (proj2 (Enemy_hits_player_iff Sample.idle Sample.grazing)).
  left. cbn. lra.
Defined.

(** ** Enemy_walk_random *)

(** Run the walker's methods on a record whose states are known, and split
    on the outcome of every bound test. *)
Ltac walker_step :=
  cbv - [Rlt_b Rplus Rminus Rmult Rdiv IZR Rlt];
  repeat match goal with |- context [Rlt_b ?a ?b] =>
    destruct (Rlt_b a b) eqn:?;
    cbv - [Rlt_b Rplus Rminus Rmult Rdiv IZR Rlt] end.

Lemma Enemy_walk_random_init_states
  (x0 y0 size : R) (color : string) (drawn : R) (e : Enemy_walk_random.t) :
  Enemy_walk_random.init x0 y0 size color drawn = Built e ->
  Enemy_walk_random.horizontal (Enemy_walk_random.state e) = true /\
  Enemy_walk_random.vertical (Enemy_walk_random.state_height e) = true.
Proof. cbn. intros [= <-]. split; reflexivity. Qed.

Lemma Enemy_walk_random_advance_states
  (g : Game.t) (e : Enemy_walk_random.t) :
  Enemy_walk_random.horizontal (Enemy_walk_random.state e) = true ->
  Enemy_walk_random.vertical (Enemy_walk_random.state_height e) = true ->
  Enemy_walk_random.horizontal
    (Enemy_walk_random.state (Enemy_walk_random.advance g e)) = true /\
  Enemy_walk_random.vertical
    (Enemy_walk_random.state_height (Enemy_walk_random.advance g e)) = true.
Proof.
  destruct e as [b s sh v]. cbn.
  destruct s; try discriminate; destruct sh; try discriminate; intros _ _;
    walker_step; split; reflexivity.
Qed.

(** C5.  A tick of the random walker adds the drift [(+1, +1)], then one
    horizontal step of [speed] in the current horizontal direction and one
    vertical step of [speed] in the current vertical direction; the horizontal
    direction turns from right to left exactly when the new x exceeds the
    playfield width and from left to right exactly when it is below 0, the
    vertical one likewise against the playfield height and 0; each axis is
    tested once. *)
Theorem Enemy_walk_random_advance_bounce
  (g : Game.t) (e : Enemy_walk_random.t) :
  Enemy_walk_random.horizontal (Enemy_walk_random.state e) = true ->
  Enemy_walk_random.vertical (Enemy_walk_random.state_height e) = true ->
  let e' := Enemy_walk_random.advance g e in
  let x := Enemy_walk_random.x e in
  let y := Enemy_walk_random.y e in
  let x' := Enemy_walk_random.x e' in
  let y' := Enemy_walk_random.y e' in
  let speed := Enemy_walk_random.speed e in
  snd (Enemy_walk_random.update g e) = e' /\
  (Enemy_walk_random.state e = Enemy_walk_random.m_moving_right ->
     x' = x + 1 + speed /\
     Enemy_walk_random.state e' =
       if Rlt_b (Game.screen_width g) x'
       then Enemy_walk_random.m_moving_left
       else Enemy_walk_random.m_moving_right) /\
  (Enemy_walk_random.state e = Enemy_walk_random.m_moving_left ->
     x' = x + 1 - speed /\
     Enemy_walk_random.state e' =
       if Rlt_b x' 0
       then Enemy_walk_random.m_moving_right
       else Enemy_walk_random.m_moving_left) /\
  (Enemy_walk_random.state_height e = Enemy_walk_random.m_moving_up ->
     y' = y + 1 + speed /\
     Enemy_walk_random.state_height e' =
       if Rlt_b (Game.screen_height g) y'
       then Enemy_walk_random.m_moving_down
       else Enemy_walk_random.m_moving_up) /\
  (Enemy_walk_random.state_height e = Enemy_walk_random.m_moving_down ->
     y' = y + 1 - speed /\
     Enemy_walk_random.state_height e' =
       if Rlt_b y' 0
       then Enemy_walk_random.m_moving_up
       else Enemy_walk_random.m_moving_down) /\
  Enemy_walk_random.speed e' = speed.
Proof.
  destruct e as [b s sh v]. cbn.
  intros Hs Hsh. split.
  { unfold Enemy_walk_random.update.
    destruct (Enemy.hits_player _ _); reflexivity. }
  destruct s; try discriminate; destruct sh; try discriminate;
    walker_step; repeat split; intros; try discriminate; try reflexivity.
Qed.

Lemma Enemy_walk_random_advance_bounce_witness :
  Enemy_walk_random.x
    (Enemy_walk_random.advance Sample.idle Sample.walker) = 802 /\
  Enemy_walk_random.state
    (Enemy_walk_random.advance Sample.idle Sample.walker) =
  Enemy_walk_random.m_moving_left.
Proof.
  destruct (Enemy_walk_random_advance_bounce Sample.idle Sample.walker
              eq_refl eq_refl) as (_ & R & _).
  destruct (R eq_refl) as [X S]. split.
  - rewrite X. cbn. lra.
  - rewrite S, X. cbn. Rcompare. reflexivity.
Defined.

(** ** Chasing_Enemy *)

Lemma unit_vector_length (dx dy k : R) :
  dx <> 0 \/ dy <> 0 -> 0 <= k ->
  hypot (dx / hypot dx dy * k) (dy / hypot dx dy * k) = k.
Proof.
  intros NZ Hk. pose proof (hypot_pos dx dy NZ) as P.
  pose proof (hypot_sqr dx dy) as S.
  apply hypot_unique; [assumption|].
  field_simplify_eq; [|lra].
  transitivity (k ^ 2 * (hypot dx dy * hypot dx dy)); [ring|].
  rewrite S. ring.
Qed.

Lemma Chasing_Enemy_checked_returns (g : Game.t) (e : Chasing_Enemy.t) :
  Chasing_Enemy.chasing_to_player_checked g e =
    Python.Return (Chasing_Enemy.chasing_to_player g e) /\
  Chasing_Enemy.update_checked g e =
    Python.Return (Chasing_Enemy.update g e).
Proof.
  assert (C : Chasing_Enemy.chasing_to_player_checked g e =
              Python.Return (Chasing_Enemy.chasing_to_player g e)).
  { unfold Chasing_Enemy.chasing_to_player_checked,
      Chasing_Enemy.chasing_to_player, Python.truediv.
    destruct (Rneq_b _ 0); reflexivity. }
  split; [exact C|].
  unfold Chasing_Enemy.update_checked. rewrite C. reflexivity.
Qed.

(** C8.  A tick of the chaser raises no exception, whatever the positions:
    when the player is exactly on the chaser nothing is divided by the zero
    length and the chaser stays where it is; otherwise the chaser advances by
    1.2 along the unit vector from itself to the player. *)
Theorem Chasing_Enemy_chasing_to_player_step
  (g : Game.t) (e : Chasing_Enemy.t) :
  let e' := Chasing_Enemy.chasing_to_player g e in
  let x := Chasing_Enemy.x e in
  let y := Chasing_Enemy.y e in
  let x' := Chasing_Enemy.x e' in
  let y' := Chasing_Enemy.y e' in
  let dx := Player.x g - x in
  let dy := Player.y g - y in
  Chasing_Enemy.chasing_to_player_checked g e = Python.Return e' /\
  Chasing_Enemy.update_checked g e =
    Python.Return (Chasing_Enemy.update g e) /\
  snd (Chasing_Enemy.update g e) = e' /\
  (Player.x g = x /\ Player.y g = y -> x' = x /\ y' = y) /\
  (Player.x g <> x \/ Player.y g <> y ->
     x' = x + dx / hypot dx dy * 1.2 /\
     y' = y + dy / hypot dx dy * 1.2 /\
     hypot (x' - x) (y' - y) = 1.2).
Proof.
  cbv zeta.
  destruct (Chasing_Enemy_checked_returns g e) as [C U].
  split; [exact C|]. split; [exact U|]. split.
  { unfold Chasing_Enemy.update.
    destruct (Enemy.hits_player _ _); reflexivity. }
  unfold Chasing_Enemy.chasing_to_player.
  set (dx := Player.x g - Chasing_Enemy.x e).
  set (dy := Player.y g - Chasing_Enemy.y e).
  destruct (Rneq_b (hypot dx dy) 0) eqn:M; cbn.
  - apply Rneq_b_true in M. split.
    + intros [Hx Hy]. exfalso. apply M. apply hypot_eq_0.
      unfold dx, dy. lra.
    + intros NZ.
      assert (NZ' : dx <> 0 \/ dy <> 0) by (unfold dx, dy; lra).
      repeat split.
      match goal with |- hypot ?a ?b = _ =>
        replace a with (dx / hypot dx dy * 1.2)
          by (unfold Chasing_Enemy.x; ring);
        replace b with (dy / hypot dx dy * 1.2)
          by (unfold Chasing_Enemy.y; ring)
      end.
      apply unit_vector_length; [assumption | lra].
  - apply Rneq_b_false, hypot_eq_0 in M. destruct M as [Hx Hy]. split.
    + intros _. rewrite Hx, Hy. unfold Chasing_Enemy.x, Chasing_Enemy.y.
      split; ring.
    + intros NZ. unfold dx, dy in Hx, Hy. lra.
Qed.

Lemma Chasing_Enemy_chasing_to_player_step_witness :
  Chasing_Enemy.chasing_to_player_checked Sample.idle Sample.chaser_on_player
    = Python.Return
        (Chasing_Enemy.chasing_to_player Sample.idle Sample.chaser_on_player)
  /\
  Chasing_Enemy.x
    (Chasing_Enemy.chasing_to_player Sample.idle Sample.chaser_on_player) = 50
  /\
  hypot
    (Chasing_Enemy.x
       (Chasing_Enemy.chasing_to_player Sample.idle Sample.chaser) - 47)
    (Chasing_Enemy.y
       (Chasing_Enemy.chasing_to_player Sample.idle Sample.chaser) - 246) = 1.2.
Proof.
  destruct (Chasing_Enemy_chasing_to_player_step
              Sample.idle Sample.chaser_on_player) as (C & _ & _ & S & _).
  destruct (Chasing_Enemy_chasing_to_player_step
              Sample.idle Sample.chaser) as (_ & _ & _ & _ & M).
  split; [exact C|]. split.
  - apply S. cbn. lra.
  - apply M. left. cbn. lra.
Defined.

(** ** Stealth_Circle *)

Lemma Stealth_Circle_init_detection
  (x0 y0 size : R) (color : string) (drawn : R) (e : Stealth_Circle.t) :
  Stealth_Circle.init x0 y0 size color drawn = Built e ->
  Stealth_Circle.detection e = 100 /\ Stealth_Circle.detected e = false.
Proof. cbn. intros [= <-]. split; reflexivity. Qed.

(** The alert flag after a tick is the outcome of the proximity test of that
    tick. *)
Lemma Stealth_Circle_update_detected (g : Game.t) (e : Stealth_Circle.t) :
  Stealth_Circle.detected (snd (Stealth_Circle.update g e)) =
    Stealth_Circle.is_near_by g e /\
  Stealth_Circle.base (snd (Stealth_Circle.update g e)) =
    Stealth_Circle.base e /\
  Stealth_Circle.detection (snd (Stealth_Circle.update g e)) =
    Stealth_Circle.detection e /\
  fst (Stealth_Circle.update g e) =
    (if Enemy.hits_player g (Stealth_Circle.base e)
     then Game.game_over_lose g else g).
Proof.
  destruct e as [[bx b_y bs bc] sp det d f].
  unfold Stealth_Circle.update, Stealth_Circle.is_near_by,
    Stealth_Circle.distance, Stealth_Circle.x, Stealth_Circle.y.
  destruct d; cbn;
    destruct (Rlt_b (hypot (Player.x g - bx) (Player.y g - b_y)) det) eqn:N;
    cbn; rewrite ?N; cbn;
    destruct (Enemy.hits_player g _); repeat split; reflexivity.
Qed.



(** ** Construction of enemies *)

(** C9, as the specification words it, at sample arguments: a fencer of size
    -10 and speed -1 (and a bare enemy of size -10) is built, no error is
    raised. *)
Lemma Enemy_init_negative_counterexample :
  -10 < 0 /\ -1 < 0 /\
  Enemy.init 0 0 (-10) "red" = Built (Enemy.mk 0 0 (-10) "red") /\
  FencingEnemy.init 0 0 (-10) "yellow" (-1) =
    Built (FencingEnemy.mk (Enemy.mk 0 0 (-10) "yellow")
             FencingEnemy.m_moving_right (-1)) /\
  ~ (exists err, FencingEnemy.init 0 0 (-10) "yellow" (-1) = Raised err) /\
  ~ (exists err, Enemy.init 0 0 (-10) "red" = Raised err).
Proof.
  repeat split; try lra; intros [err H]; discriminate H.
Qed.

(** C9, amended.  No constructor validates its arguments: for every size and
    every speed, negative ones included, each of them builds the enemy and
    stores the size and the speed it was given. *)
Theorem Enemy_init_builds
  (x0 y0 size : R) (color : string) (speed drawn : R) :
  Enemy.init x0 y0 size color = Built (Enemy.mk x0 y0 size color) /\
  Enemy_walk_random.init x0 y0 size color drawn =
    Built (Enemy_walk_random.mk (Enemy.mk x0 y0 size color)
             Enemy_walk_random.m_moving_right
             Enemy_walk_random.m_moving_down drawn) /\
  Chasing_Enemy.init x0 y0 size color =
    Built (Chasing_Enemy.mk (Enemy.mk x0 y0 size color)) /\
  FencingEnemy.init x0 y0 size color speed =
    Built (FencingEnemy.mk (Enemy.mk x0 y0 size color)
             FencingEnemy.m_moving_right speed) /\
  Stealth_Circle.init x0 y0 size color drawn =
    Built (Stealth_Circle.mk (Enemy.mk x0 y0 size color)
             drawn 100 false color).
Proof. repeat split. Qed.

(** ** FencingEnemy *)

Lemma FencingEnemy_method_eqb_eq (a b : FencingEnemy.method) :
  FencingEnemy.method_eqb a b = true <-> a = b.
Proof. destruct a, b; cbn; split; intros; try discriminate; reflexivity. Qed.

Lemma FencingEnemy_next_differs (m : FencingEnemy.method) :
  FencingEnemy.method_eqb m (FencingEnemy.next m) = false.
Proof. destruct m; reflexivity. Qed.

(** Every tick either finds the bound reached, and then only changes the
    state to its successor, or finds it not reached, and then only moves. *)
Lemma FencingEnemy_advance_cases (g : Game.t) (e : FencingEnemy.t) :
  (FencingEnemy.reached g e /\
   FencingEnemy.advance g e =
     FencingEnemy.set_state (FencingEnemy.next (FencingEnemy.state e)) e /\
   FencingEnemy.is_transition g e = true)
  \/
  (~ FencingEnemy.reached g e /\
   FencingEnemy.advance g e =
     FencingEnemy.move_to
       (FencingEnemy.x e + FencingEnemy.step_x e)
       (FencingEnemy.y e + FencingEnemy.step_y e) e /\
   FencingEnemy.is_transition g e = false).
Proof.
  destruct e as [[bx b_y bs bc] [] sp];
    unfold FencingEnemy.is_transition, FencingEnemy.reached,
      FencingEnemy.advance, FencingEnemy.call,
      FencingEnemy.moving_right, FencingEnemy.moving_down,
      FencingEnemy.moving_left, FencingEnemy.moving_up,
      FencingEnemy.step_x, FencingEnemy.step_y,
      FencingEnemy.x, FencingEnemy.y; cbn;
    match goal with |- context [Rlt_b ?a ?b] =>
      destruct (Rlt_b a b) eqn:C end;
    [ apply Rlt_b_true in C | apply Rlt_b_false in C
    | apply Rlt_b_true in C | apply Rlt_b_false in C
    | apply Rlt_b_true in C | apply Rlt_b_false in C
    | apply Rlt_b_true in C | apply Rlt_b_false in C ];
    cbn;
    first [ left; repeat split; first [lra | reflexivity]
          | right; repeat split;
            first [ lra | reflexivity
                  | unfold FencingEnemy.move_to, FencingEnemy.set_state; cbn;
                    repeat f_equal; ring ] ].
Qed.

(** C6.  The fencer's state is one of moving-right, moving-down, moving-left,
    moving-up; a tick either keeps the state or takes it to its successor in
    the cycle right, down, left, up, right; while the coordinate of the state
    has not reached the bound of the square around home the enemy moves by
    its speed along one axis and keeps its state, and once the coordinate has
    reached or passed the bound the state becomes the successor; all this for
    every speed. *)
Theorem FencingEnemy_advance_cycle (g : Game.t) (e : FencingEnemy.t) :
  let e' := FencingEnemy.advance g e in
  snd (FencingEnemy.update g e) = e' /\
  (forall m : FencingEnemy.method,
      m = FencingEnemy.m_moving_right \/ m = FencingEnemy.m_moving_down \/
      m = FencingEnemy.m_moving_left \/ m = FencingEnemy.m_moving_up) /\
  (FencingEnemy.next FencingEnemy.m_moving_right = FencingEnemy.m_moving_down
   /\
   FencingEnemy.next FencingEnemy.m_moving_down = FencingEnemy.m_moving_left
   /\
   FencingEnemy.next FencingEnemy.m_moving_left = FencingEnemy.m_moving_up
   /\
   FencingEnemy.next FencingEnemy.m_moving_up = FencingEnemy.m_moving_right)
  /\
  (FencingEnemy.state e' = FencingEnemy.state e \/
   FencingEnemy.state e' = FencingEnemy.next (FencingEnemy.state e)) /\
  (~ FencingEnemy.reached g e ->
     FencingEnemy.state e' = FencingEnemy.state e /\
     FencingEnemy.x e' = FencingEnemy.x e + FencingEnemy.step_x e /\
     FencingEnemy.y e' = FencingEnemy.y e + FencingEnemy.step_y e) /\
  (FencingEnemy.reached g e ->
     FencingEnemy.state e' = FencingEnemy.next (FencingEnemy.state e)) /\
  (FencingEnemy.x e' = FencingEnemy.x e \/
   FencingEnemy.y e' = FencingEnemy.y e) /\
  FencingEnemy.speed e' = FencingEnemy.speed e /\
  (forall n : nat,
      FencingEnemy.state (FencingEnemy.run (S n) g e) =
        FencingEnemy.state (FencingEnemy.run n g e) \/
      FencingEnemy.state (FencingEnemy.run (S n) g e) =
        FencingEnemy.next (FencingEnemy.state (FencingEnemy.run n g e))).
Proof.
  cbv zeta.
  assert (K : forall e0,
    FencingEnemy.state (FencingEnemy.advance g e0) = FencingEnemy.state e0 \/
    FencingEnemy.state (FencingEnemy.advance g e0) =
      FencingEnemy.next (FencingEnemy.state e0)).
  { intros e0.
    destruct (FencingEnemy_advance_cases g e0) as [(_ & E & _) | (_ & E & _)];
      rewrite E; [right | left]; reflexivity. }
  split.
  { unfold FencingEnemy.update.
    destruct (Enemy.hits_player _ _); reflexivity. }
  split. { intros []; tauto. }
  split. { repeat split. }
  split. { apply K. }
  destruct (FencingEnemy_advance_cases g e) as [(R & E & _) | (R & E & _)];
    rewrite E; repeat split; intros; try reflexivity; try contradiction;
    try apply K.
  - left; reflexivity.
  - destruct e as [b [] sp]; cbn;
      unfold FencingEnemy.step_x, FencingEnemy.step_y; cbn;
      first [ left; ring | right; ring ].
Qed.

Lemma FencingEnemy_advance_cycle_witness :
  FencingEnemy.state (FencingEnemy.advance Sample.small_home Sample.fencer) =
    FencingEnemy.m_moving_right /\
  FencingEnemy.x (FencingEnemy.advance Sample.small_home Sample.fencer) =
    699 + 2.
Proof.
  destruct (FencingEnemy_advance_cycle Sample.small_home Sample.fencer)
    as (_ & _ & _ & _ & M & _).
  destruct M as (S & X & _).
  - cbn. lra.
  - split; [exact S | exact X].
Defined.

(** *** The cost of a lap *)

Lemma FencingEnemy_ticks_split (n : nat) (g : Game.t) (e : FencingEnemy.t) :
  (FencingEnemy.moves n g e + FencingEnemy.transitions n g e = n)%nat.
Proof.
  induction n as [|n IH]; cbn; [reflexivity|].
  destruct (FencingEnemy.is_transition g (FencingEnemy.run n g e)); lia.
Qed.

Section FencerFields.

Variables (m : FencingEnemy.method) (nx ny : R) (e : FencingEnemy.t).

Lemma FencingEnemy_state_set_state :
  FencingEnemy.state (FencingEnemy.set_state m e) = m.
Proof. reflexivity. Qed.

Lemma FencingEnemy_x_set_state :
  FencingEnemy.x (FencingEnemy.set_state m e) = FencingEnemy.x e.
Proof. reflexivity. Qed.

Lemma FencingEnemy_y_set_state :
  FencingEnemy.y (FencingEnemy.set_state m e) = FencingEnemy.y e.
Proof. reflexivity. Qed.

Lemma FencingEnemy_speed_set_state :
  FencingEnemy.speed (FencingEnemy.set_state m e) = FencingEnemy.speed e.
Proof. reflexivity. Qed.

Lemma FencingEnemy_state_move_to :
  FencingEnemy.state (FencingEnemy.move_to nx ny e) = FencingEnemy.state e.
Proof. reflexivity. Qed.

Lemma FencingEnemy_x_move_to :
  FencingEnemy.x (FencingEnemy.move_to nx ny e) = nx.
Proof. reflexivity. Qed.

Lemma FencingEnemy_y_move_to :
  FencingEnemy.y (FencingEnemy.move_to nx ny e) = ny.
Proof. reflexivity. Qed.

Lemma FencingEnemy_speed_move_to :
  FencingEnemy.speed (FencingEnemy.move_to nx ny e) = FencingEnemy.speed e.
Proof. reflexivity. Qed.

End FencerFields.

Create Rewrite HintDb fencer.
#[local] Hint Rewrite
  FencingEnemy_state_set_state FencingEnemy_x_set_state
  FencingEnemy_y_set_state FencingEnemy_speed_set_state
  FencingEnemy_state_move_to FencingEnemy_x_move_to
  FencingEnemy_y_move_to FencingEnemy_speed_move_to : fencer.

Lemma FencingEnemy_lap_run (g : Game.t) (e0 : FencingEnemy.t) :
  0 < FencingEnemy.speed e0 ->
  FencingEnemy.state e0 = FencingEnemy.m_moving_right ->
  FencingEnemy.x e0 <= Home.x (Game.home g) - Home.size (Game.home g) / 2 ->
  FencingEnemy.y e0 <= Home.y (Game.home g) - Home.size (Game.home g) / 2 ->
  forall n : nat,
    FencingEnemy.lap g e0 (FencingEnemy.run n g e0)
      (FencingEnemy.transitions n g e0) (FencingEnemy.moves n g e0).
Proof.
  intros Hs H0 Hx Hy n.
  induction n as [|n IH].
  - cbn. unfold FencingEnemy.lap. cbn. repeat split; try assumption; lra.
  - cbn [FencingEnemy.run FencingEnemy.transitions FencingEnemy.moves].
    set (e := FencingEnemy.run n g e0) in *.
    set (t := FencingEnemy.transitions n g e0) in *.
    set (m := FencingEnemy.moves n g e0) in *.
    clearbody e t m.
    unfold FencingEnemy.lap in IH |- *. cbv zeta in IH |- *.
    destruct IH as [Sp IH].
    destruct (FencingEnemy_advance_cases g e) as [(R & E & T) | (R & E & T)];
      rewrite E, T; unfold FencingEnemy.reached in R.
    + replace (t + 1)%nat with (S t) by lia.
      replace (m + 0)%nat with m by lia.
      split; [exact Sp|].
      destruct t as [|[|[|[|t]]]];
        try (destruct IH as (St & A & B); autorewrite with fencer;
             rewrite St in R; rewrite ?St; cbv beta iota in R;
             cbn [FencingEnemy.next];
             repeat split; try reflexivity; lra).
      exact IH.
    + replace (t + 0)%nat with t by lia.
      replace (m + 1)%nat with (S m) by lia. rewrite S_INR.
      split; [exact Sp|].
      destruct t as [|[|[|[|t]]]];
        try (destruct IH as (St & A & B); autorewrite with fencer;
             unfold FencingEnemy.step_x, FencingEnemy.step_y;
             rewrite St in R; rewrite ?St; cbv beta iota in R; rewrite ?Sp;
             repeat split; try reflexivity; lra).
      lra.
Qed.

(** *** Laps end and start over *)

Lemma FencingEnemy_run_front (n : nat) (g : Game.t) (e : FencingEnemy.t) :
  FencingEnemy.run (S n) g e = FencingEnemy.run n g (FencingEnemy.advance g e).
Proof.
  induction n as [|n IH]; [reflexivity|].
  cbn [FencingEnemy.run] in *. now rewrite IH.
Qed.

Lemma FencingEnemy_run_plus (a b : nat) (g : Game.t) (e : FencingEnemy.t) :
  FencingEnemy.run (a + b) g e = FencingEnemy.run b g (FencingEnemy.run a g e).
Proof.
  revert e. induction a as [|a IH]; intros e; [reflexivity|].
  change (S a + b)%nat with (S (a + b)).
  now rewrite !FencingEnemy_run_front, IH.
Qed.

Lemma FencingEnemy_transitions_plus
  (a b : nat) (g : Game.t) (e : FencingEnemy.t) :
  FencingEnemy.transitions (a + b) g e =
  (FencingEnemy.transitions a g e +
   FencingEnemy.transitions b g (FencingEnemy.run a g e))%nat.
Proof.
  induction b as [|b IH].
  - rewrite Nat.add_0_r. cbn. lia.
  - rewrite Nat.add_succ_r. cbn [FencingEnemy.transitions].
    rewrite IH, FencingEnemy_run_plus. lia.
Qed.

Lemma FencingEnemy_run_speed (n : nat) (g : Game.t) (e : FencingEnemy.t) :
  FencingEnemy.speed (FencingEnemy.run n g e) = FencingEnemy.speed e.
Proof.
  induction n as [|n IH]; [reflexivity|].
  cbn [FencingEnemy.run].
  destruct (FencingEnemy_advance_cases g (FencingEnemy.run n g e))
    as [(_ & E & _) | (_ & E & _)]; rewrite E; exact IH.
Qed.

(** A phase whose coordinate is at most [N] steps short of its bound ends
    with a transition. *)
Lemma FencingEnemy_phase_ends (g : Game.t) (N : nat) :
  forall e : FencingEnemy.t,
    0 < FencingEnemy.speed e ->
    (let h := Game.home g in
     match FencingEnemy.state e with
     | FencingEnemy.m_moving_right =>
         Home.x h + Home.size h / 2 - FencingEnemy.x e
     | FencingEnemy.m_moving_down =>
         Home.y h + Home.size h / 2 - FencingEnemy.y e
     | FencingEnemy.m_moving_left =>
         FencingEnemy.x e - (Home.x h - Home.size h / 2)
     | FencingEnemy.m_moving_up =>
         FencingEnemy.y e - (Home.y h - Home.size h / 2)
     end) <= INR N * FencingEnemy.speed e ->
    exists k : nat, FencingEnemy.transitions k g e = 1%nat.
Proof.
  induction N as [|N IH]; intros e Hs Gap; cbv zeta in Gap;
    destruct (FencingEnemy_advance_cases g e) as [(R & E & T) | (R & E & T)].
  - exists 1%nat. cbn. now rewrite T.
  - exfalso. apply R. unfold FencingEnemy.reached.
    cbn [INR] in Gap. destruct (FencingEnemy.state e); lra.
  - exists 1%nat. cbn. now rewrite T.
  - destruct (IH (FencingEnemy.advance g e)) as [k K].
    + rewrite E. autorewrite with fencer. exact Hs.
    + rewrite E. autorewrite with fencer. rewrite S_INR in Gap.
      unfold FencingEnemy.step_x, FencingEnemy.step_y.
      destruct (FencingEnemy.state e); lra.
    + exists (1 + k)%nat. rewrite FencingEnemy_transitions_plus.
      cbn [FencingEnemy.transitions FencingEnemy.run]. rewrite T. exact K.
Qed.

Lemma FencingEnemy_next_transition (g : Game.t) (e : FencingEnemy.t) :
  0 < FencingEnemy.speed e ->
  exists k : nat, FencingEnemy.transitions k g e = 1%nat.
Proof.
  intros Hs.
  set (gap :=
         let h := Game.home g in
         match FencingEnemy.state e with
         | FencingEnemy.m_moving_right =>
             Home.x h + Home.size h / 2 - FencingEnemy.x e
         | FencingEnemy.m_moving_down =>
             Home.y h + Home.size h / 2 - FencingEnemy.y e
         | FencingEnemy.m_moving_left =>
             FencingEnemy.x e - (Home.x h - Home.size h / 2)
         | FencingEnemy.m_moving_up =>
             FencingEnemy.y e - (Home.y h - Home.size h / 2)
         end).
  destruct (INR_unbounded (gap / FencingEnemy.speed e)) as [N HN].
  apply (FencingEnemy_phase_ends g N e Hs). fold gap.
  apply Rmult_lt_compat_r with (r := FencingEnemy.speed e) in HN;
    [|assumption].
  replace (gap / FencingEnemy.speed e * FencingEnemy.speed e) with gap in HN
    by (field; lra).
  lra.
Qed.

(** At any positive speed every number of transitions is reached: the patrol
    never gets stuck in a phase. *)
Lemma FencingEnemy_patrol_goes_on (g : Game.t) (t : nat) :
  forall e : FencingEnemy.t,
    0 < FencingEnemy.speed e ->
    exists n : nat, FencingEnemy.transitions n g e = t.
Proof.
  induction t as [|t IH]; intros e Hs.
  - exists 0%nat. reflexivity.
  - destruct (IH e Hs) as [a A].
    destruct (FencingEnemy_next_transition g (FencingEnemy.run a g e))
      as [b B].
    + now rewrite FencingEnemy_run_speed.
    + exists (a + b)%nat. rewrite FencingEnemy_transitions_plus. lia.
Qed.

(** The state after a run is the start state advanced once per transition. *)
Lemma FencingEnemy_run_state (n : nat) (g : Game.t) (e : FencingEnemy.t) :
  FencingEnemy.state (FencingEnemy.run n g e) =
  Nat.iter (FencingEnemy.transitions n g e) FencingEnemy.next
    (FencingEnemy.state e).
Proof.
  induction n as [|n IH]; [reflexivity|].
  cbn [FencingEnemy.run FencingEnemy.transitions].
  destruct (FencingEnemy_advance_cases g (FencingEnemy.run n g e))
    as [(_ & E & T) | (_ & E & T)]; rewrite E, T;
    autorewrite with fencer; rewrite IH.
  - rewrite Nat.add_1_r. reflexivity.
  - rewrite Nat.add_0_r. reflexivity.
Qed.

(** The fencers of [create_fencing_enemy] start a lap: they stand on the
    corner of home in state moving-right, at speeds 1, 3 and 4. *)
Lemma EnemyGenerator_fencer_starts_lap
  (g : Game.t) (speed : R) (e : FencingEnemy.t) :
  EnemyGenerator.fencer_at_corner g speed = Built e ->
  FencingEnemy.speed e = speed /\
  FencingEnemy.state e = FencingEnemy.m_moving_right /\
  FencingEnemy.x e = Home.x (Game.home g) - Home.size (Game.home g) / 2 /\
  FencingEnemy.y e = Home.y (Game.home g) - Home.size (Game.home g) / 2.
Proof. cbn. intros [= <-]. repeat split. Qed.

Lemma EnemyGenerator_fencers_speeds (g : Game.t) :
  List.map
    (fun c => match c with
              | Built e => Some (FencingEnemy.speed e)
              | Raised _ => None
              end)
    (EnemyGenerator.create_fencing_enemy g) = [Some 1; Some 3; Some 4].
Proof. reflexivity. Qed.

(** The tick of the fourth transition puts the enemy back in the situation a
    lap starts from. *)
Lemma FencingEnemy_lap_restarts
  (g : Game.t) (e0 : FencingEnemy.t) (n : nat) :
  0 < FencingEnemy.speed e0 ->
  FencingEnemy.state e0 = FencingEnemy.m_moving_right ->
  FencingEnemy.x e0 <= Home.x (Game.home g) - Home.size (Game.home g) / 2 ->
  FencingEnemy.y e0 <= Home.y (Game.home g) - Home.size (Game.home g) / 2 ->
  FencingEnemy.transitions n g e0 = 3%nat ->
  FencingEnemy.transitions (S n) g e0 = 4%nat ->
  let e := FencingEnemy.run (S n) g e0 in
  0 < FencingEnemy.speed e /\
  FencingEnemy.state e = FencingEnemy.m_moving_right /\
  FencingEnemy.x e <= Home.x (Game.home g) - Home.size (Game.home g) / 2 /\
  FencingEnemy.y e <= Home.y (Game.home g) - Home.size (Game.home g) / 2.
Proof.
  intros Hs H0 Hx Hy T3 T4. cbv zeta.
  pose proof (FencingEnemy_lap_run g e0 Hs H0 Hx Hy n) as L.
  rewrite T3 in L. unfold FencingEnemy.lap in L. cbv zeta in L.
  destruct L as (Sp & St & X & _).
  cbn [FencingEnemy.transitions] in T4. rewrite T3 in T4.
  cbn [FencingEnemy.run].
  destruct (FencingEnemy_advance_cases g (FencingEnemy.run n g e0))
    as [(R & E & T) | (R & E & T)]; rewrite T in T4; [|discriminate].
  rewrite E. autorewrite with fencer. rewrite St.
  unfold FencingEnemy.reached in R. rewrite St in R.
  repeat split; try assumption. now rewrite Sp.
Qed.

(** C10.  A tick is a transition exactly when the coordinate of the state has
    reached or passed its bound, and such a tick leaves the position as it
    was; so a lap started at (or beyond) the corner of home in state
    moving-right, at a speed [s > 0], has seen its fourth transition only
    after strictly more than [4 * size / s] ticks. *)
Theorem FencingEnemy_transition_takes_a_tick
  (g : Game.t) (e : FencingEnemy.t) :
  (FencingEnemy.is_transition g e = true <-> FencingEnemy.reached g e) /\
  (FencingEnemy.reached g e ->
     FencingEnemy.x (FencingEnemy.advance g e) = FencingEnemy.x e /\
     FencingEnemy.y (FencingEnemy.advance g e) = FencingEnemy.y e) /\
  (forall n : nat,
      0 < FencingEnemy.speed e ->
      FencingEnemy.state e = FencingEnemy.m_moving_right ->
      FencingEnemy.x e <= Home.x (Game.home g) - Home.size (Game.home g) / 2 ->
      FencingEnemy.y e <= Home.y (Game.home g) - Home.size (Game.home g) / 2 ->
      (4 <= FencingEnemy.transitions n g e)%nat ->
      4 * Home.size (Game.home g) / FencingEnemy.speed e < INR n).
Proof.
  split; [|split].
  - destruct (FencingEnemy_advance_cases g e) as [(R & _ & T) | (R & _ & T)];
      rewrite T; split; intros; try discriminate; try assumption;
      try reflexivity; contradiction.
  - intros R.
    destruct (FencingEnemy_advance_cases g e) as [(_ & E & _) | (N & _ & _)];
      [|contradiction].
    rewrite E. split; reflexivity.
  - intros n Hs H0 Hx Hy Ht.
    pose proof (FencingEnemy_lap_run g e Hs H0 Hx Hy n) as L.
    pose proof (FencingEnemy_ticks_split n g e) as N.
    unfold FencingEnemy.lap in L. cbv zeta in L. destruct L as [_ L].
    set (t := FencingEnemy.transitions n g e) in *.
    set (m := FencingEnemy.moves n g e) in *.
    destruct t as [|[|[|[|t]]]]; try lia.
    assert (I : INR m + 4 <= INR n).
    { rewrite <- N, plus_INR.
      assert (I4 : INR 4 <= INR (S (S (S (S t))))) by (apply le_INR; lia).
      cbn [INR] in I4 |- *. lra. }
    apply Rmult_lt_reg_r with (FencingEnemy.speed e); [assumption|].
    replace (4 * Home.size (Game.home g) / FencingEnemy.speed e *
             FencingEnemy.speed e)
      with (4 * Home.size (Game.home g)) by (field; lra).
    nra.
Qed.

(** Run the ticks of a fencer whose position is known, innermost first. *)
Ltac fencer_ticks :=
  repeat match goal with
    | |- context [FencingEnemy.is_transition ?g ?e] =>
        lazymatch e with
        | context [FencingEnemy.advance] => fail
        | _ => idtac
        end;
        let R := fresh "R" in
        let E := fresh "E" in
        let T := fresh "T" in
        destruct (FencingEnemy_advance_cases g e)
          as [(R & E & T) | (R & E & T)];
        [ try (exfalso; cbn in R; lra) | try (exfalso; apply R; cbn; lra) ];
        rewrite ?E, T; clear R E T
    end.

Lemma FencingEnemy_transition_takes_a_tick_witness :
  4 * Home.size (Game.home Sample.small_home) /
    FencingEnemy.speed Sample.fencer < INR 8.
Proof.
  destruct (FencingEnemy_transition_takes_a_tick
              Sample.small_home Sample.fencer) as (_ & _ & L).
  apply L.
  - cbn. lra.
  - reflexivity.
  - cbn. lra.
  - cbn. lra.
  - cbn [FencingEnemy.transitions FencingEnemy.run].
    fencer_ticks. cbn. lia.
Defined.

(** * Further properties *)

(** ** Hit-boxes, home and distance *)

Lemma hypot_scale (k a b : R) : hypot (k * a) (k * b) = Rabs k * hypot a b.
Proof.
  pose proof (hypot_sqr a b) as S. pose proof (hypot_nonneg a b) as N.
  apply hypot_unique.
  - apply Rmult_le_pos; [apply Rabs_pos | assumption].
  - transitivity (Rabs k * Rabs k * (hypot a b * hypot a b)); [ring|].
    rewrite S. unfold Rabs; destruct (Rcase_abs k); ring.
Qed.

Lemma hypot_ge_legs (a b : R) : Rabs a <= hypot a b /\ Rabs b <= hypot a b.
Proof.
  pose proof (hypot_sqr a b) as S. pose proof (hypot_nonneg a b) as N.
  split; unfold Rabs; destruct (Rcase_abs _); nra.
Qed.

Lemma Enemy_hits_player_near (g : Game.t) (e : Enemy.t) :
  hypot (Player.x g - Enemy.x e) (Player.y g - Enemy.y e) < Enemy.size e / 2 ->
  Enemy.hits_player g e = true.
Proof.
  intros D.
  destruct (hypot_ge_legs (Player.x g - Enemy.x e) (Player.y g - Enemy.y e))
    as [A B].
  apply Rabs_le_iff in A. apply Rabs_le_iff in B.
  unfold Enemy.hits_player. rewrite !andb_true_iff, !Rlt_b_true. lra.
Qed.

Lemma Enemy_hits_player_within (g : Game.t) (e : Enemy.t) :
  Enemy.hits_player g e = true ->
  hypot (Player.x g - Enemy.x e) (Player.y g - Enemy.y e)
    < Enemy.size e / sqrt 2.
Proof.
  set (dx := Player.x g - Enemy.x e). set (dy := Player.y g - Enemy.y e).
  pose proof (hypot_sqr dx dy) as S. pose proof (hypot_nonneg dx dy) as N.
  unfold Enemy.hits_player. rewrite !andb_true_iff, !Rlt_b_true.
  fold dx dy. intros [X Y].
  assert (X' : - (Enemy.size e / 2) < dx < Enemy.size e / 2)
    by (unfold dx; lra).
  assert (Y' : - (Enemy.size e / 2) < dy < Enemy.size e / 2)
    by (unfold dy; lra).
  clear X Y.
  assert (R2 : 0 < sqrt 2) by (apply sqrt_lt_R0; lra).
  assert (Q2 : sqrt 2 * sqrt 2 = 2) by (apply sqrt_sqrt; lra).
  apply Rmult_lt_reg_r with (sqrt 2); [assumption|].
  replace (Enemy.size e / sqrt 2 * sqrt 2) with (Enemy.size e)
    by (field; lra).
  assert (P : 0 < Enemy.size e) by lra.
  assert (Sq : (hypot dx dy * sqrt 2) * (hypot dx dy * sqrt 2)
               < Enemy.size e * Enemy.size e).
  { replace (hypot dx dy * sqrt 2 * (hypot dx dy * sqrt 2))
      with (2 * (dx ^ 2 + dy ^ 2))
      by (rewrite <- S; rewrite <- Q2 at 1; ring).
    nra. }
  nra.
Qed.

(** X1.  The hit-box against the distance: a player closer to the enemy than
    [size/2] is hit, and a player who is hit is closer than [size / sqrt 2]
    (the circles inscribed in and around the square). *)
Theorem Enemy_hits_player_distance (g : Game.t) (e : Enemy.t) :
  let d := hypot (Player.x g - Enemy.x e) (Player.y g - Enemy.y e) in
  (d < Enemy.size e / 2 -> Enemy.hits_player g e = true) /\
  (Enemy.hits_player g e = true -> d < Enemy.size e / sqrt 2).
Proof.
  cbv zeta. split.
  - apply Enemy_hits_player_near.
  - apply Enemy_hits_player_within.
Qed.

Lemma Enemy_hits_player_distance_witness :
  Enemy.hits_player Sample.idle
    (Stealth_Circle.base Sample.sentinel_on_player) = true.
Proof.
  apply (proj1 (Enemy_hits_player_distance Sample.idle
                  (Stealth_Circle.base Sample.sentinel_on_player))).
  cbn. rewrite (hypot_unique (50 - 50) (250 - 250) 0); lra.
Defined.

(** X2.  An enemy whose size is zero or negative has an empty hit-box: it
    hits no player, wherever the player is. *)
Theorem Enemy_hits_player_empty_box (g : Game.t) (e : Enemy.t) :
  Enemy.size e <= 0 -> Enemy.hits_player g e = false.
Proof.
  intros Hs. apply not_true_iff_false. unfold Enemy.hits_player.
  rewrite !andb_true_iff, !Rlt_b_true. lra.
Qed.

Lemma Enemy_hits_player_empty_box_witness :
  Enemy.hits_player Sample.idle Sample.hollow = false.
Proof.
  apply (Enemy_hits_player_empty_box Sample.idle Sample.hollow). cbn. lra.
Defined.

(** X3.  A home of negative size contains no point, and a home of size zero
    contains its center and nothing else. *)
Theorem Home_contains_degenerate (h : Home.t) (px py : R) :
  (Home.size h < 0 -> Home.contains h px py = false) /\
  (Home.size h = 0 ->
     (Home.contains h px py = true <-> px = Home.x h /\ py = Home.y h)).
Proof.
  unfold Home.contains; cbv zeta. split.
  - intros Hs. apply not_true_iff_false.
    rewrite !andb_true_iff, !Rle_b_true. lra.
  - intros Hs. rewrite !andb_true_iff, !Rle_b_true, Hs. lra.
Qed.

Lemma Home_contains_degenerate_witness :
  Home.contains (Home.mk 700 250 (-20)) 700 250 = false /\
  Home.contains (Home.mk 700 250 0) 700 250 = true.
Proof.
  split.
  - apply (proj1 (Home_contains_degenerate (Home.mk 700 250 (-20)) 700 250)).
    cbn. lra.
  - apply (proj2 (Home_contains_degenerate (Home.mk 700 250 0) 700 250)
             eq_refl).
    split; reflexivity.
Defined.

(** ** The player on its way *)

Section PlayerWalk.

Variable g : Game.t.

Let wx := Waypoint.x (Game.waypoint g).
Let wy := Waypoint.y (Game.waypoint g).
Let d := hypot (wx - Player.x g) (wy - Player.y g).

(** What no tick of the player changes. *)
Lemma Player_update_keeps :
  Game.home (Player.update g) = Game.home g /\
  Player.speed (Player.update g) = Player.speed g /\
  Waypoint.x (Game.waypoint (Player.update g)) = wx /\
  Waypoint.y (Game.waypoint (Player.update g)) = wy /\
  Game.screen_width (Player.update g) = Game.screen_width g /\
  Game.screen_height (Player.update g) = Game.screen_height g.
Proof.
  destruct (Waypoint.is_active (Game.waypoint g)) eqn:A.
  - rewrite (Player_update_active_eq g A). cbv zeta.
    destruct (Rlt_b _ _);
      destruct (Home.contains _ _ _); repeat split.
  - unfold Player.update.
    destruct (Home.contains _ _ _); cbn; rewrite A; repeat split.
Qed.

Lemma Player_update_towards :
  Waypoint.is_active (Game.waypoint g) = true ->
  d <> 0 ->
  Player.x (Player.update g) =
    Player.x g + Player.speed g * ((wx - Player.x g) / d) /\
  Player.y (Player.update g) =
    Player.y g + Player.speed g * ((wy - Player.y g) / d).
Proof.
  intros A D.
  assert (NZ : wx - Player.x g <> 0 \/ wy - Player.y g <> 0).
  { destruct (Req_dec (wx - Player.x g) 0) as [X|X]; [|now left].
    destruct (Req_dec (wy - Player.y g) 0) as [Y|Y]; [|now right].
    exfalso. apply D. apply hypot_eq_0. now split. }
  destruct (cos_sin_atan2 _ _ NZ) as [C S].
  unfold Player.x at 1, Player.y at 1.
  rewrite (Player_update_turtle_active g A).
  unfold RawTurtle.forward, RawTurtle.setheading, RawTurtle.towards. cbn.
  fold wx wy. unfold Player.x, Player.y in C, S. rewrite C, S.
  split; reflexivity.
Qed.

Lemma Player_update_distance :
  Waypoint.is_active (Game.waypoint g) = true ->
  d <> 0 ->
  hypot (wx - Player.x (Player.update g)) (wy - Player.y (Player.update g)) =
  Rabs (d - Player.speed g).
Proof.
  intros A D. destruct (Player_update_towards A D) as [X Y].
  rewrite X, Y.
  replace (wx - (Player.x g + Player.speed g * ((wx - Player.x g) / d)))
    with ((1 - Player.speed g / d) * (wx - Player.x g)) by (field; exact D).
  replace (wy - (Player.y g + Player.speed g * ((wy - Player.y g) / d)))
    with ((1 - Player.speed g / d) * (wy - Player.y g)) by (field; exact D).
  rewrite hypot_scale. fold d.
  assert (P : 0 < d).
  { pose proof (hypot_nonneg (wx - Player.x g) (wy - Player.y g)) as N.
    change (0 <= d) in N. lra. }
  rewrite <- (Rabs_pos_eq d) at 2 by lra.
  rewrite <- Rabs_mult. f_equal. field. exact D.
Qed.

Lemma Player_update_on_waypoint :
  Waypoint.is_active (Game.waypoint g) = true ->
  d = 0 ->
  Player.x (Player.update g) = Player.x g + Player.speed g /\
  Player.y (Player.update g) = Player.y g /\
  Waypoint.is_active (Game.waypoint (Player.update g)) = true.
Proof.
  intros A D. apply hypot_eq_0 in D. destruct D as [Dx Dy].
  assert (X : Player.x (Player.update g) = Player.x g + Player.speed g).
  { unfold Player.x at 1. rewrite (Player_update_turtle_active g A).
    unfold RawTurtle.forward, RawTurtle.setheading, RawTurtle.towards. cbn.
    fold wx wy. unfold Player.x, Player.y in Dx, Dy. rewrite Dx, Dy.
    unfold atan2. destruct (Rlt_dec 0 0); [lra|].
    rewrite cos_0. unfold Player.x. ring. }
  assert (Y : Player.y (Player.update g) = Player.y g).
  { unfold Player.y at 1. rewrite (Player_update_turtle_active g A).
    unfold RawTurtle.forward, RawTurtle.setheading, RawTurtle.towards. cbn.
    fold wx wy. unfold Player.x, Player.y in Dx, Dy. rewrite Dx, Dy.
    unfold atan2. destruct (Rlt_dec 0 0); [lra|].
    rewrite sin_0. unfold Player.y. ring. }
  split; [exact X|]. split; [exact Y|].
  rewrite (Player_update_waypoint_active g A).
  apply negb_true_iff, Rlt_b_false.
  unfold RawTurtle.distance. fold (Player.x (Player.update g)).
  fold (Player.y (Player.update g)). fold wx wy. rewrite X, Y.
  replace (wx - (Player.x g + Player.speed g))
    with (Player.speed g * (-1)) by lra.
  replace (wy - Player.y g) with (Player.speed g * 0) by lra.
  rewrite hypot_scale.
  rewrite (hypot_unique (-1) 0 1) by lra.
  unfold Rabs; destruct (Rcase_abs _); lra.
Qed.

End PlayerWalk.

Lemma Player_run_front (n : nat) (g : Game.t) :
  Player.run (S n) g = Player.run n (Player.update g).
Proof.
  induction n as [|n IH]; [reflexivity|].
  cbn [Player.run] in *. now rewrite IH.
Qed.

Lemma Player_run_plus (a b : nat) (g : Game.t) :
  Player.run (a + b) g = Player.run b (Player.run a g).
Proof.
  revert g. induction a as [|a IH]; intros g; [reflexivity|].
  change (S a + b)%nat with (S (a + b)).
  now rewrite !Player_run_front, IH.
Qed.

Lemma Player_run_home (n : nat) (g : Game.t) :
  Game.home (Player.run n g) = Game.home g.
Proof.
  induction n as [|n IH]; [reflexivity|].
  cbn [Player.run]. destruct (Player_update_keeps (Player.run n g)) as [H _].
  now rewrite H.
Qed.

(** With no active waypoint the player stays where it is, tick after tick. *)
Lemma Player_run_inactive (k : nat) (g : Game.t) :
  Waypoint.is_active (Game.waypoint g) = false ->
  Game.player (Player.run k g) = Game.player g /\
  Game.waypoint (Player.run k g) = Game.waypoint g.
Proof.
  intros A. induction k as [|k [P W]]; [split; reflexivity|].
  cbn [Player.run].
  destruct (Player_update_inactive (Player.run k g)) as [P' W'].
  - now rewrite W.
  - rewrite P', W'. now split.
Qed.

(** The distance of the player from the waypoint. *)
Lemma Player_run_reaches_from (N : nat) :
  forall g : Game.t,
    0 < Player.speed g ->
    Waypoint.is_active (Game.waypoint g) = true ->
    0 < hypot (Waypoint.x (Game.waypoint g) - Player.x g)
              (Waypoint.y (Game.waypoint g) - Player.y g)
      <= INR N * Player.speed g ->
    exists n : nat,
      Waypoint.is_active (Game.waypoint (Player.run n g)) = false /\
      hypot (Waypoint.x (Game.waypoint g) - Player.x (Player.run n g))
            (Waypoint.y (Game.waypoint g) - Player.y (Player.run n g))
        < Player.speed g.
Proof.
  induction N as [|N IH]; intros g Hs A [Dp Dn].
  - cbn [INR] in Dn. lra.
  - assert (D0 : hypot (Waypoint.x (Game.waypoint g) - Player.x g)
                   (Waypoint.y (Game.waypoint g) - Player.y g) <> 0) by lra.
    pose proof (Player_update_distance g A D0) as Dist.
    pose proof (Player_update_waypoint_active g A) as W.
    destruct (Player_update_keeps g) as (_ & Sp & Wx & Wy & _).
    unfold RawTurtle.distance in W.
    change (RawTurtle.xcor (Player_state.turtle
              (Game.player (Player.update g))))
      with (Player.x (Player.update g)) in W.
    change (RawTurtle.ycor (Player_state.turtle
              (Game.player (Player.update g))))
      with (Player.y (Player.update g)) in W.
    rewrite Dist in W.
    set (d := hypot (Waypoint.x (Game.waypoint g) - Player.x g)
                (Waypoint.y (Game.waypoint g) - Player.y g)) in *.
    destruct (Rlt_le_dec d (2 * Player.speed g)) as [Near | Far].
    + exists 1%nat. cbn [Player.run]. split.
      * rewrite W. apply negb_false_iff, Rlt_b_true.
        unfold Rabs; destruct (Rcase_abs _); lra.
      * rewrite Dist. unfold Rabs; destruct (Rcase_abs _); lra.
    + rewrite Rabs_pos_eq in Dist, W by lra.
      destruct (IH (Player.update g)) as (n & I & C).
      * rewrite Sp. exact Hs.
      * rewrite W. apply negb_true_iff, Rlt_b_false. lra.
      * rewrite Wx, Wy, Dist, Sp. rewrite S_INR in Dn. lra.
      * exists (S n). rewrite Player_run_front. split; [exact I|].
        rewrite Wx, Wy, Sp in C. exact C.
Qed.

Lemma Player_run_reaches (g : Game.t) :
  0 < Player.speed g ->
  Waypoint.is_active (Game.waypoint g) = true ->
  exists n : nat,
    Waypoint.is_active (Game.waypoint (Player.run n g)) = false /\
    hypot (Waypoint.x (Game.waypoint g) - Player.x (Player.run n g))
          (Waypoint.y (Game.waypoint g) - Player.y (Player.run n g))
      < Player.speed g.
Proof.
  intros Hs A.
  set (d := hypot (Waypoint.x (Game.waypoint g) - Player.x g)
              (Waypoint.y (Game.waypoint g) - Player.y g)).
  pose proof (hypot_nonneg (Waypoint.x (Game.waypoint g) - Player.x g)
                (Waypoint.y (Game.waypoint g) - Player.y g)) as Dn.
  fold d in Dn.
  destruct (Req_dec d 0) as [Z | NZ].
  - destruct (Player_update_on_waypoint g A Z) as (X & Y & A').
    destruct (Player_update_keeps g) as (_ & Sp & Wx & Wy & _).
    apply hypot_eq_0 in Z. destruct Z as [Zx Zy].
    destruct (Player_run_reaches_from 1 (Player.update g)) as (n & I & C).
    + rewrite Sp. exact Hs.
    + exact A'.
    + rewrite Wx, Wy, X, Y, Sp.
      replace (Waypoint.x (Game.waypoint g) - (Player.x g + Player.speed g))
        with (Player.speed g * (-1)) by lra.
      replace (Waypoint.y (Game.waypoint g) - Player.y g)
        with (Player.speed g * 0) by lra.
      rewrite hypot_scale, (hypot_unique (-1) 0 1) by lra.
      rewrite Rabs_pos_eq by lra. cbn [INR]. lra.
    + exists (S n). rewrite Player_run_front. split; [exact I|].
      rewrite Wx, Wy, Sp in C. exact C.
  - destruct (INR_unbounded (d / Player.speed g)) as [N HN].
    apply (Player_run_reaches_from N g Hs A). fold d.
    apply Rmult_lt_compat_r with (r := Player.speed g) in HN; [|assumption].
    replace (d / Player.speed g * Player.speed g) with d in HN
      by (field; lra).
    lra.
Qed.



(** X5.  A tick with an active waypoint exactly under the player moves the
    player off it, by [speed] along the x axis, and leaves the waypoint
    active. *)
Theorem Player_update_steps_off_waypoint (g : Game.t) :
  Waypoint.is_active (Game.waypoint g) = true ->
  Waypoint.x (Game.waypoint g) = Player.x g ->
  Waypoint.y (Game.waypoint g) = Player.y g ->
  Player.x (Player.update g) = Player.x g + Player.speed g /\
  Player.y (Player.update g) = Player.y g /\
  Waypoint.is_active (Game.waypoint (Player.update g)) = true.
Proof.
  intros A X Y. apply Player_update_on_waypoint; [exact A|].
  apply hypot_eq_0. lra.
Qed.

Lemma Player_update_steps_off_waypoint_witness :
  Player.x (Player.update Sample.on_waypoint) = 50 + 5 /\
  Player.y (Player.update Sample.on_waypoint) = 250 /\
  Waypoint.is_active (Game.waypoint (Player.update Sample.on_waypoint)) = true.
Proof.
  apply (Player_update_steps_off_waypoint Sample.on_waypoint);
    reflexivity.
Defined.

(** X6.  At a positive speed the player reaches an active waypoint: after some
    number of ticks the waypoint is inactive and the player is closer to it
    than [speed], and from then on the player stays where it is. *)
Theorem Player_reaches_waypoint (g : Game.t) :
  0 < Player.speed g ->
  Waypoint.is_active (Game.waypoint g) = true ->
  exists n : nat,
    Waypoint.is_active (Game.waypoint (Player.run n g)) = false /\
    hypot (Waypoint.x (Game.waypoint g) - Player.x (Player.run n g))
          (Waypoint.y (Game.waypoint g) - Player.y (Player.run n g))
      < Player.speed g /\
    (forall k : nat,
        Game.player (Player.run (n + k) g) = Game.player (Player.run n g) /\
        Waypoint.is_active (Game.waypoint (Player.run (n + k) g)) = false).
Proof.
  intros Hs A. destruct (Player_run_reaches g Hs A) as (n & I & C).
  exists n. split; [exact I|]. split; [exact C|].
  intros k. rewrite Player_run_plus.
  destruct (Player_run_inactive k (Player.run n g) I) as [P W].
  rewrite P, W. split; [reflexivity | exact I].
Qed.

Lemma Player_reaches_waypoint_witness :
  exists n : nat,
    Waypoint.is_active
      (Game.waypoint (Player.run n Sample.heading_home)) = false.
Proof.
  destruct (Player_reaches_waypoint Sample.heading_home) as (n & I & _).
  - cbn. lra.
  - reflexivity.
  - exists n. exact I.
Defined.

(** X7.  A click far enough inside home wins the game: when every point
    closer than [speed] to the active waypoint lies in home, some tick
    signals the win. *)
Theorem Player_walks_home (g : Game.t) :
  0 < Player.speed g ->
  Waypoint.is_active (Game.waypoint g) = true ->
  Rabs (Waypoint.x (Game.waypoint g) - Home.x (Game.home g))
    + Player.speed g <= Home.size (Game.home g) / 2 ->
  Rabs (Waypoint.y (Game.waypoint g) - Home.y (Game.home g))
    + Player.speed g <= Home.size (Game.home g) / 2 ->
  exists n : nat, Game.signalled "You Win" (Player.run n g).
Proof.
  intros Hs A Hx Hy. destruct (Player_run_reaches g Hs A) as (n & _ & C).
  exists (S n). cbn [Player.run]. apply Player_update_signals_win.
  rewrite Player_run_home.
  destruct (hypot_ge_legs
              (Waypoint.x (Game.waypoint g) - Player.x (Player.run n g))
              (Waypoint.y (Game.waypoint g) - Player.y (Player.run n g)))
    as [Lx Ly].
  unfold Home.contains; cbv zeta.
  rewrite !andb_true_iff, !Rle_b_true.
  revert Hx Hy Lx Ly. unfold Rabs.
  repeat destruct (Rcase_abs _); lra.
Qed.

Lemma Player_walks_home_witness :
  exists n : nat, Game.signalled "You Win" (Player.run n Sample.heading_home).
Proof.
  apply (Player_walks_home Sample.heading_home).
  - cbn. lra.
  - reflexivity.
  - cbn. unfold Rabs; destruct (Rcase_abs _); lra.
  - cbn. unfold Rabs; destruct (Rcase_abs _); lra.
Defined.

Lemma Player_update_outside_home (g : Game.t) :
  Home.contains (Game.home g) (Player.x g) (Player.y g) = false ->
  Game.stopped (Player.update g) = Game.stopped g /\
  Game.texts (Player.update g) = Game.texts g.
Proof.
  intros H. unfold Player.update. rewrite H.
  destruct (Waypoint.is_active (Game.waypoint g));
    [destruct (Rlt_b _ _)|]; split; reflexivity.
Qed.

(** X8.  The win is tested on the position the tick starts from: a tick that
    starts outside home leaves the terminal flag and the banners as they
    were, also when the step it makes ends inside home. *)
Theorem Player_update_tests_home_first (g : Game.t) :
  Home.contains (Game.home g) (Player.x g) (Player.y g) = false ->
  Game.stopped (Player.update g) = Game.stopped g /\
  Game.texts (Player.update g) = Game.texts g.
Proof. apply Player_update_outside_home. Qed.

Lemma Player_update_tests_home_first_witness :
  Home.contains (Game.home (Player.update Sample.at_the_door))
    (Player.x (Player.update Sample.at_the_door))
    (Player.y (Player.update Sample.at_the_door)) = true /\
  Game.stopped (Player.update Sample.at_the_door) = false /\
  Game.texts (Player.update Sample.at_the_door) = [].
Proof.
  split.
  - destruct (Player_update_keeps Sample.at_the_door) as [H _]. rewrite H.
    destruct (Player_update_towards Sample.at_the_door eq_refl) as [X Y].
    + cbn. rewrite (hypot_unique (700 - 685) (250 - 250) 15); lra.
    + rewrite X, Y. cbn.
      rewrite (hypot_unique (700 - 685) (250 - 250) 15) by lra.
      unfold Home.contains; cbn. Rcompare. reflexivity.
  - apply (Player_update_tests_home_first Sample.at_the_door).
    unfold Home.contains; cbn. Rcompare. reflexivity.
Defined.

(** ** The chaser against a player who stands still *)

Section ChaserStep.

Variables (g : Game.t) (e : Chasing_Enemy.t).

Let d := Chasing_Enemy.distance g e.
Let e' := Chasing_Enemy.chasing_to_player g e.

Lemma Chasing_Enemy_step_keeps :
  Enemy.size (Chasing_Enemy.base e') = Enemy.size (Chasing_Enemy.base e) /\
  Enemy.color (Chasing_Enemy.base e') = Enemy.color (Chasing_Enemy.base e).
Proof.
  unfold e', Chasing_Enemy.chasing_to_player.
  destruct (Rneq_b _ _); split; reflexivity.
Qed.

Lemma Chasing_Enemy_step_at_rest :
  d = 0 ->
  Chasing_Enemy.x e' = Chasing_Enemy.x e /\
  Chasing_Enemy.y e' = Chasing_Enemy.y e.
Proof.
  intros Z. unfold d, Chasing_Enemy.distance in Z.
  unfold e', Chasing_Enemy.chasing_to_player.
  rewrite (proj2 (Rneq_b_false _ _) Z). cbn.
  apply hypot_eq_0 in Z. destruct Z as [-> ->].
  unfold Chasing_Enemy.x, Chasing_Enemy.y. split; ring.
Qed.

Lemma Chasing_Enemy_step_moving :
  d <> 0 ->
  Chasing_Enemy.x e' =
    Chasing_Enemy.x e + (Player.x g - Chasing_Enemy.x e) / d * 1.2 /\
  Chasing_Enemy.y e' =
    Chasing_Enemy.y e + (Player.y g - Chasing_Enemy.y e) / d * 1.2.
Proof.
  intros NZ. unfold d, Chasing_Enemy.distance in NZ.
  unfold e', Chasing_Enemy.chasing_to_player.
  rewrite (proj2 (Rneq_b_true _ _) NZ). cbn. split; reflexivity.
Qed.

Lemma Chasing_Enemy_step_distance :
  Chasing_Enemy.distance g e' = if Rneq_b d 0 then Rabs (d - 1.2) else 0.
Proof.
  destruct (Rneq_b d 0) eqn:M.
  - apply Rneq_b_true in M.
    destruct (Chasing_Enemy_step_moving M) as [X Y].
    unfold Chasing_Enemy.distance at 1. rewrite X, Y.
    replace (Player.x g -
             (Chasing_Enemy.x e + (Player.x g - Chasing_Enemy.x e) / d * 1.2))
      with ((1 - 1.2 / d) * (Player.x g - Chasing_Enemy.x e))
      by (field; exact M).
    replace (Player.y g -
             (Chasing_Enemy.y e + (Player.y g - Chasing_Enemy.y e) / d * 1.2))
      with ((1 - 1.2 / d) * (Player.y g - Chasing_Enemy.y e))
      by (field; exact M).
    rewrite hypot_scale.
    change (hypot (Player.x g - Chasing_Enemy.x e)
              (Player.y g - Chasing_Enemy.y e)) with d.
    assert (P : 0 <= d) by apply hypot_nonneg.
    rewrite <- (Rabs_pos_eq d) at 2 by lra.
    rewrite <- Rabs_mult. f_equal. field. exact M.
  - apply Rneq_b_false in M.
    destruct (Chasing_Enemy_step_at_rest M) as [X Y].
    unfold Chasing_Enemy.distance at 1. rewrite X, Y. exact M.
Qed.

End ChaserStep.

Lemma Chasing_Enemy_run_front
  (n : nat) (g : Game.t) (e : Chasing_Enemy.t) :
  Chasing_Enemy.run (S n) g e =
  Chasing_Enemy.run n g (Chasing_Enemy.chasing_to_player g e).
Proof.
  induction n as [|n IH]; [reflexivity|].
  cbn [Chasing_Enemy.run] in *. now rewrite IH.
Qed.

Lemma Chasing_Enemy_update_loses (g : Game.t) (e : Chasing_Enemy.t) :
  Enemy.hits_player g
    (Chasing_Enemy.base (Chasing_Enemy.chasing_to_player g e)) = true ->
  Game.signalled "You Lose" (fst (Chasing_Enemy.update g e)).
Proof.
  intros H. unfold Chasing_Enemy.update. rewrite H. split; [reflexivity|].
  cbn. apply in_or_app. right. now left.
Qed.

Lemma Chasing_Enemy_catches_from (g : Game.t) (N : nat) :
  forall e : Chasing_Enemy.t,
    2.4 <= Enemy.size (Chasing_Enemy.base e) ->
    Chasing_Enemy.distance g e <= INR N * 1.2 ->
    exists n : nat,
      Enemy.hits_player g
        (Chasing_Enemy.base
           (Chasing_Enemy.chasing_to_player g (Chasing_Enemy.run n g e)))
      = true.
Proof.
  induction N as [|N IH]; intros e Hs D;
    pose proof (Chasing_Enemy_step_distance g e) as Step;
    pose proof (hypot_nonneg (Player.x g - Chasing_Enemy.x e)
                  (Player.y g - Chasing_Enemy.y e)) as Dp;
    change (0 <= Chasing_Enemy.distance g e) in Dp;
    destruct (Chasing_Enemy_step_keeps g e) as [Sz _].
  - exists 0%nat. cbn [Chasing_Enemy.run]. apply Enemy_hits_player_near.
    change (Chasing_Enemy.distance g (Chasing_Enemy.chasing_to_player g e)
            < Enemy.size
                (Chasing_Enemy.base (Chasing_Enemy.chasing_to_player g e)) / 2).
    rewrite Step, Sz. cbn [INR] in D.
    rewrite (proj2 (Rneq_b_false _ _)) by lra. lra.
  - destruct (Rlt_le_dec (Chasing_Enemy.distance g e) 2.4) as [Near | Far].
    + exists 0%nat. cbn [Chasing_Enemy.run]. apply Enemy_hits_player_near.
      change (Chasing_Enemy.distance g (Chasing_Enemy.chasing_to_player g e)
              < Enemy.size
                  (Chasing_Enemy.base (Chasing_Enemy.chasing_to_player g e))
                / 2).
      rewrite Step, Sz. destruct (Rneq_b _ _) eqn:M; [|lra].
      apply Rneq_b_true in M.
      unfold Rabs; destruct (Rcase_abs _); lra.
    + destruct (IH (Chasing_Enemy.chasing_to_player g e)) as [n H].
      * rewrite Sz. exact Hs.
      * rewrite Step, (proj2 (Rneq_b_true _ _)) by lra.
        rewrite Rabs_pos_eq by lra. rewrite S_INR in D. lra.
      * exists (S n). rewrite Chasing_Enemy_run_front. exact H.
Qed.

(** X9.  A tick of the chaser at distance [d > 0] from the player leaves it
    at distance [|d - 1.2|]: it closes in by 1.2, and from closer than 1.2 it
    jumps over the player; a chaser on the player stays on the player.  Its
    size and color are not touched. *)
Theorem Chasing_Enemy_closes_in (g : Game.t) (e : Chasing_Enemy.t) :
  let e' := Chasing_Enemy.chasing_to_player g e in
  (Chasing_Enemy.distance g e = 0 -> Chasing_Enemy.distance g e' = 0) /\
  (Chasing_Enemy.distance g e <> 0 ->
     Chasing_Enemy.distance g e' = Rabs (Chasing_Enemy.distance g e - 1.2)) /\
  Enemy.size (Chasing_Enemy.base e') = Enemy.size (Chasing_Enemy.base e) /\
  Enemy.color (Chasing_Enemy.base e') = Enemy.color (Chasing_Enemy.base e).
Proof.
  cbv zeta. pose proof (Chasing_Enemy_step_distance g e) as Step.
  split; [|split].
  - intros Z. rewrite Step. now rewrite (proj2 (Rneq_b_false _ _) Z).
  - intros NZ. rewrite Step. now rewrite (proj2 (Rneq_b_true _ _) NZ).
  - apply Chasing_Enemy_step_keeps.
Qed.

Lemma Chasing_Enemy_closes_in_witness :
  Chasing_Enemy.distance Sample.idle
    (Chasing_Enemy.chasing_to_player Sample.idle Sample.chaser) = 3.8.
Proof.
  assert (D : Chasing_Enemy.distance Sample.idle Sample.chaser = 5).
  { unfold Chasing_Enemy.distance. cbn. apply hypot_unique; lra. }
  destruct (Chasing_Enemy_closes_in Sample.idle Sample.chaser)
    as (_ & M & _).
  rewrite M; rewrite D; [|lra].
  rewrite Rabs_pos_eq; lra.
Defined.

(** X10.  A chaser whose size is at least 2.4 catches a player who stands
    still: after some number of ticks its tick signals the loss. *)
Theorem Chasing_Enemy_catches (g : Game.t) (e : Chasing_Enemy.t) :
  2.4 <= Enemy.size (Chasing_Enemy.base e) ->
  exists n : nat,
    Game.signalled "You Lose"
      (fst (Chasing_Enemy.update g (Chasing_Enemy.run n g e))).
Proof.
  intros Hs.
  destruct (INR_unbounded (Chasing_Enemy.distance g e / 1.2)) as [N HN].
  destruct (Chasing_Enemy_catches_from g N e Hs) as [n H].
  - apply Rmult_lt_compat_r with (r := 1.2) in HN; [|lra].
    replace (Chasing_Enemy.distance g e / 1.2 * 1.2)
      with (Chasing_Enemy.distance g e) in HN by (field; lra).
    lra.
  - exists n. now apply Chasing_Enemy_update_loses.
Qed.

Lemma Chasing_Enemy_catches_witness :
  exists n : nat,
    Game.signalled "You Lose"
      (fst (Chasing_Enemy.update Sample.idle
              (Chasing_Enemy.run n Sample.idle Sample.chaser))).
Proof.
  apply (Chasing_Enemy_catches Sample.idle Sample.chaser). cbn. lra.
Defined.

(** ** The sentinel's alert state *)

Lemma sqrt2_ge_1 : 1 <= sqrt 2.
Proof.
  rewrite <- sqrt_1 at 1. apply sqrt_le_1_alt. lra.
Qed.

(** X11.  A sentinel whose hit-box fits in its detection circle
    ([size / sqrt 2 <= detection], as for size 50 and radius 100) is alerted
    on every tick on which it hits the player: the loss is never signalled
    by a sentinel that the tick leaves dormant. *)
Theorem Stealth_Circle_hit_is_alerted (g : Game.t) (e : Stealth_Circle.t) :
  Enemy.size (Stealth_Circle.base e) / sqrt 2 <= Stealth_Circle.detection e ->
  Enemy.hits_player g (Stealth_Circle.base e) = true ->
  Stealth_Circle.detected (snd (Stealth_Circle.update g e)) = true /\
  Game.signalled "You Lose" (fst (Stealth_Circle.update g e)).
Proof.
  intros Fit Hit.
  destruct (Stealth_Circle_update_detected g e) as (D & _ & _ & G).
  rewrite D, G, Hit. split.
  - apply Rlt_b_true. pose proof (Enemy_hits_player_within g _ Hit) as W.
    unfold Stealth_Circle.distance, Stealth_Circle.x, Stealth_Circle.y. lra.
  - split; [reflexivity|]. cbn. apply in_or_app. right. now left.
Qed.

Lemma Stealth_Circle_hit_is_alerted_witness :
  Stealth_Circle.detected
    (snd (Stealth_Circle.update Sample.idle Sample.sentinel_on_player)) = true
  /\
  Game.signalled "You Lose"
    (fst (Stealth_Circle.update Sample.idle Sample.sentinel_on_player)).
Proof.
  apply (Stealth_Circle_hit_is_alerted Sample.idle Sample.sentinel_on_player).
  - cbn. pose proof sqrt2_ge_1 as S.
    apply Rmult_le_reg_r with (sqrt 2); [lra|].
    replace (50 / sqrt 2 * sqrt 2) with 50 by (field; lra). nra.
  - unfold Enemy.hits_player. cbn. Rcompare. reflexivity.
Defined.

(** The sentinel a tick leaves behind. *)
Lemma Stealth_Circle_update_eq (g : Game.t) (e : Stealth_Circle.t) :
  snd (Stealth_Circle.update g e) =
  Stealth_Circle.mk (Stealth_Circle.base e) (Stealth_Circle.speed e)
    (Stealth_Circle.detection e) (Stealth_Circle.is_near_by g e)
    (if Stealth_Circle.is_near_by g e
     then (if Stealth_Circle.detected e
           then Stealth_Circle.fill e else "red"%string)
     else (if Stealth_Circle.detected e
           then "white"%string else Stealth_Circle.fill e)).
Proof.
  destruct e as [[bx b_y bs bc] sp det d f].
  unfold Stealth_Circle.update, Stealth_Circle.is_near_by,
    Stealth_Circle.distance, Stealth_Circle.x, Stealth_Circle.y.
  destruct d; cbn;
    destruct (Rlt_b (hypot (Player.x g - bx) (Player.y g - b_y)) det) eqn:N;
    cbn; rewrite ?N; cbn;
    destruct (Enemy.hits_player g _); reflexivity.
Qed.

(** X12.  A tick of the sentinel keeps the canvas item in step with the alert
    state (red when alerted, white when dormant), a sentinel built white
    starts in step, and a second tick against the same world changes nothing
    more. *)
Theorem Stealth_Circle_update_settles (g : Game.t) (e : Stealth_Circle.t) :
  let e' := snd (Stealth_Circle.update g e) in
  (Stealth_Circle.lit e -> Stealth_Circle.lit e') /\
  snd (Stealth_Circle.update g e') = e' /\
  (forall x0 y0 size drawn s,
      Stealth_Circle.init x0 y0 size "white" drawn = Built s ->
      Stealth_Circle.lit s).
Proof.
  cbv zeta. rewrite !Stealth_Circle_update_eq.
  destruct e as [b sp det d f]. cbn.
  change (Stealth_Circle.is_near_by g
            {| Stealth_Circle.base := b; Stealth_Circle.speed := sp;
               Stealth_Circle.detection := det;
               Stealth_Circle.detected :=
                 Stealth_Circle.is_near_by g
                   {| Stealth_Circle.base := b; Stealth_Circle.speed := sp;
                      Stealth_Circle.detection := det;
                      Stealth_Circle.detected := d;
                      Stealth_Circle.fill := f |};
               Stealth_Circle.fill := _ |})
    with (Stealth_Circle.is_near_by g
            {| Stealth_Circle.base := b; Stealth_Circle.speed := sp;
               Stealth_Circle.detection := det;
               Stealth_Circle.detected := d;
               Stealth_Circle.fill := f |}).
  unfold Stealth_Circle.lit. cbn.
  destruct (Stealth_Circle.is_near_by g _); destruct d; cbn;
    repeat split; intros; subst; try reflexivity;
    match goal with
    | H : Built _ = Built _ |- _ => injection H as <-; reflexivity
    end.
Qed.

Lemma Stealth_Circle_update_settles_witness :
  Stealth_Circle.lit
    (snd (Stealth_Circle.update Sample.idle Sample.sentinel)).
Proof.
  apply (proj1 (Stealth_Circle_update_settles Sample.idle Sample.sentinel)).
  reflexivity.
Defined.

(** ** The walker stays about the playfield *)

(** Turn the outcome of every bound test into an inequality. *)
Ltac bounds_known :=
  repeat match goal with
    | H : Rlt_b _ _ = true |- _ => apply Rlt_b_true in H
    | H : Rlt_b _ _ = false |- _ => apply Rlt_b_false in H
    end.

Lemma Enemy_walk_random_advance_bouncing
  (g : Game.t) (e : Enemy_walk_random.t) :
  1 <= Enemy_walk_random.speed e ->
  0 <= Game.screen_width g ->
  0 <= Game.screen_height g ->
  Enemy_walk_random.bouncing g e ->
  Enemy_walk_random.bouncing g (Enemy_walk_random.advance g e) /\
  Enemy_walk_random.speed (Enemy_walk_random.advance g e) =
    Enemy_walk_random.speed e.
Proof.
  destruct e as [[bx b_y bs bc] s sh v].
  unfold Enemy_walk_random.bouncing. cbn.
  intros Hv HW HH [Bx By].
  destruct s; try contradiction; destruct sh; try contradiction;
    cbv [Enemy_walk_random.advance Enemy_walk_random.call
         Enemy_walk_random.moving_right Enemy_walk_random.moving_left
         Enemy_walk_random.moving_up Enemy_walk_random.moving_down
         Enemy_walk_random.move_to Enemy_walk_random.set_state
         Enemy_walk_random.set_state_height Enemy_walk_random.x
         Enemy_walk_random.y Enemy_walk_random.base Enemy_walk_random.state
         Enemy_walk_random.state_height Enemy_walk_random.speed
         Enemy.move_to Enemy.x Enemy.y Enemy.size Enemy.color];
    repeat match goal with |- context [Rlt_b ?a ?b] =>
      destruct (Rlt_b a b) eqn:?;
      cbv [Enemy_walk_random.advance Enemy_walk_random.call
           Enemy_walk_random.moving_right Enemy_walk_random.moving_left
           Enemy_walk_random.moving_up Enemy_walk_random.moving_down
           Enemy_walk_random.move_to Enemy_walk_random.set_state
           Enemy_walk_random.set_state_height Enemy_walk_random.x
           Enemy_walk_random.y Enemy_walk_random.base Enemy_walk_random.state
           Enemy_walk_random.state_height Enemy_walk_random.speed
           Enemy.move_to Enemy.x Enemy.y Enemy.size Enemy.color] end;
    bounds_known; repeat split; try reflexivity; lra.
Qed.

Lemma Enemy_walk_random_run_bouncing
  (g : Game.t) (e : Enemy_walk_random.t) (n : nat) :
  1 <= Enemy_walk_random.speed e ->
  0 <= Game.screen_width g ->
  0 <= Game.screen_height g ->
  Enemy_walk_random.bouncing g e ->
  Enemy_walk_random.bouncing g (Enemy_walk_random.run n g e) /\
  Enemy_walk_random.speed (Enemy_walk_random.run n g e) =
    Enemy_walk_random.speed e.
Proof.
  intros Hv HW HH B.
  induction n as [|n [IB IS]]; [split; [exact B | reflexivity]|].
  cbn [Enemy_walk_random.run].
  destruct (Enemy_walk_random_advance_bouncing g
              (Enemy_walk_random.run n g e)) as [B' S']; try assumption.
  - rewrite IS. exact Hv.
  - split; [exact B' | now rewrite S'].
Qed.

Lemma Enemy_walk_random_bouncing_bounds
  (g : Game.t) (e : Enemy_walk_random.t) :
  1 <= Enemy_walk_random.speed e ->
  Enemy_walk_random.bouncing g e ->
  1 - Enemy_walk_random.speed e <= Enemy_walk_random.x e
    <= Game.screen_width g + 1 + Enemy_walk_random.speed e /\
  1 - Enemy_walk_random.speed e <= Enemy_walk_random.y e
    <= Game.screen_height g + 1 + Enemy_walk_random.speed e.
Proof.
  unfold Enemy_walk_random.bouncing. intros Hv [Bx By].
  destruct (Enemy_walk_random.state _); try contradiction;
    destruct (Enemy_walk_random.state_height _); try contradiction; lra.
Qed.

(** X13.  A walker of speed at least 1 that is where its directions allow
    (as a new walker dropped on a playfield is) stays so for ever, and so
    never gets further outside the playfield than one tick carries it:
    [1 - speed <= x <= width + 1 + speed], and the same for y against the
    height. *)
Theorem Enemy_walk_random_stays_about
  (g : Game.t) (e : Enemy_walk_random.t) (n : nat) :
  1 <= Enemy_walk_random.speed e ->
  0 <= Game.screen_width g ->
  0 <= Game.screen_height g ->
  Enemy_walk_random.bouncing g e ->
  let e' := Enemy_walk_random.run n g e in
  Enemy_walk_random.bouncing g e' /\
  Enemy_walk_random.speed e' = Enemy_walk_random.speed e /\
  1 - Enemy_walk_random.speed e <= Enemy_walk_random.x e'
    <= Game.screen_width g + 1 + Enemy_walk_random.speed e /\
  1 - Enemy_walk_random.speed e <= Enemy_walk_random.y e'
    <= Game.screen_height g + 1 + Enemy_walk_random.speed e.
Proof.
  intros Hv HW HH B. cbv zeta.
  destruct (Enemy_walk_random_run_bouncing g e n Hv HW HH B) as [IB IS].
  split; [exact IB|]. split; [exact IS|].
  rewrite <- IS. apply Enemy_walk_random_bouncing_bounds; [|exact IB].
  now rewrite IS.
Qed.

Lemma Enemy_walk_random_stays_about_witness :
  1 - 6 <= Enemy_walk_random.x
             (Enemy_walk_random.run 1000 Sample.idle Sample.fresh_walker)
        <= 800 + 1 + 6.
Proof.
  destruct (Enemy_walk_random_stays_about Sample.idle Sample.fresh_walker 1000)
    as (_ & _ & X & _).
  - cbn. lra.
  - cbn. lra.
  - cbn. lra.
  - unfold Enemy_walk_random.bouncing. cbn. lra.
  - exact X.
Defined.

(** ** The fencer on its round *)

Lemma FencingEnemy_advance_on_side (g : Game.t) (e : FencingEnemy.t) :
  0 < FencingEnemy.speed e ->
  0 <= Home.size (Game.home g) ->
  FencingEnemy.on_side g e ->
  FencingEnemy.on_side g (FencingEnemy.advance g e) /\
  FencingEnemy.speed (FencingEnemy.advance g e) = FencingEnemy.speed e.
Proof.
  intros Hs Hh O.
  destruct (FencingEnemy_advance_cases g e) as [(R & E & _) | (R & E & _)];
    rewrite E; (split; [|reflexivity]);
    unfold FencingEnemy.on_side, FencingEnemy.reached,
      FencingEnemy.step_x, FencingEnemy.step_y in *;
    cbv zeta in *; autorewrite with fencer;
    destruct (FencingEnemy.state e); cbn [FencingEnemy.next]; lra.
Qed.

Lemma FencingEnemy_run_on_side
  (g : Game.t) (e : FencingEnemy.t) (n : nat) :
  0 < FencingEnemy.speed e ->
  0 <= Home.size (Game.home g) ->
  FencingEnemy.on_side g e ->
  FencingEnemy.on_side g (FencingEnemy.run n g e).
Proof.
  intros Hs Hh O.
  induction n as [|n IH]; [exact O|].
  cbn [FencingEnemy.run].
  apply FencingEnemy_advance_on_side; try assumption.
  now rewrite FencingEnemy_run_speed.
Qed.

(** X14.  A fencer of positive speed that is on the side its state walks
    along (as one put on the corner of a home of size at least 0 is) stays
    on the side of its state for ever: it walks the perimeter of the square
    around home and is never further than one step from it. *)
Theorem FencingEnemy_stays_on_perimeter
  (g : Game.t) (e : FencingEnemy.t) (n : nat) :
  0 < FencingEnemy.speed e ->
  0 <= Home.size (Game.home g) ->
  FencingEnemy.on_side g e ->
  let h := Game.home g in
  let e' := FencingEnemy.run n g e in
  FencingEnemy.on_side g e' /\
  Home.x h - Home.size h / 2 - FencingEnemy.speed e < FencingEnemy.x e'
    < Home.x h + Home.size h / 2 + FencingEnemy.speed e /\
  Home.y h - Home.size h / 2 - FencingEnemy.speed e < FencingEnemy.y e'
    < Home.y h + Home.size h / 2 + FencingEnemy.speed e.
Proof.
  intros Hs Hh O. cbv zeta.
  pose proof (FencingEnemy_run_on_side g e n Hs Hh O) as I.
  split; [exact I|].
  unfold FencingEnemy.on_side in I. cbv zeta in I.
  rewrite FencingEnemy_run_speed in I.
  destruct (FencingEnemy.state _); lra.
Qed.

Lemma FencingEnemy_stays_on_perimeter_witness :
  FencingEnemy.on_side Sample.small_home
    (FencingEnemy.run 1000 Sample.small_home Sample.fencer).
Proof.
  apply (FencingEnemy_stays_on_perimeter Sample.small_home Sample.fencer 1000).
  - cbn. lra.
  - cbn. lra.
  - unfold FencingEnemy.on_side. cbn. lra.
Defined.

Lemma FencingEnemy_next_four (m : FencingEnemy.method) :
  Nat.iter 4 FencingEnemy.next m = m.
Proof. destruct m; reflexivity. Qed.

(** X15.  At any positive speed, from any position and state, the fencer
    finishes a lap: after some number of ticks it has made exactly four
    transitions and is back in the state it started in. *)
Theorem FencingEnemy_completes_lap (g : Game.t) (e : FencingEnemy.t) :
  0 < FencingEnemy.speed e ->
  exists n : nat,
    FencingEnemy.transitions n g e = 4%nat /\
    FencingEnemy.state (FencingEnemy.run n g e) = FencingEnemy.state e.
Proof.
  intros Hs. destruct (FencingEnemy_patrol_goes_on g 4 e Hs) as [n T].
  exists n. split; [exact T|].
  rewrite FencingEnemy_run_state, T. apply FencingEnemy_next_four.
Qed.

Lemma FencingEnemy_completes_lap_witness :
  exists n : nat,
    FencingEnemy.transitions n Sample.small_home Sample.fencer = 4%nat /\
    FencingEnemy.state (FencingEnemy.run n Sample.small_home Sample.fencer) =
      FencingEnemy.m_moving_right.
Proof.
  apply (FencingEnemy_completes_lap Sample.small_home Sample.fencer).
  cbn. lra.
Defined.

(** X16.  A fencer whose speed is zero or negative and whose coordinate has
    not reached the bound of its state never gets there: it makes no
    transition and stays in its state for ever. *)
Theorem FencingEnemy_stalls_without_speed
  (g : Game.t) (e : FencingEnemy.t) (n : nat) :
  FencingEnemy.speed e <= 0 ->
  ~ FencingEnemy.reached g e ->
  FencingEnemy.state (FencingEnemy.run n g e) = FencingEnemy.state e /\
  FencingEnemy.transitions n g e = 0%nat /\
  ~ FencingEnemy.reached g (FencingEnemy.run n g e).
Proof.
  intros Hs NR.
  induction n as [|n (St & Tr & R)]; [repeat split; assumption|].
  cbn [FencingEnemy.run FencingEnemy.transitions].
  pose proof (FencingEnemy_run_speed n g e) as Sp.
  destruct (FencingEnemy_advance_cases g (FencingEnemy.run n g e))
    as [(R' & _ & _) | (_ & E & T)]; [contradiction|].
  rewrite E, T, Tr. autorewrite with fencer.
  split; [exact St|]. split; [reflexivity|].
  unfold FencingEnemy.reached, FencingEnemy.step_x, FencingEnemy.step_y in *.
  autorewrite with fencer.
  destruct (FencingEnemy.state (FencingEnemy.run n g e)); lra.
Qed.

Lemma FencingEnemy_stalls_without_speed_witness :
  FencingEnemy.transitions 1000 Sample.idle Sample.frozen_fencer = 0%nat.
Proof.
  destruct (FencingEnemy_stalls_without_speed
              Sample.idle Sample.frozen_fencer 1000) as (_ & T & _).
  - cbn. lra.
  - unfold FencingEnemy.reached. cbn. lra.
  - exact T.
Defined.

(** What a lap costs, from the situation a lap starts in. *)
Lemma FencingEnemy_lap_cost (g : Game.t) (e : FencingEnemy.t) (n : nat) :
  0 < FencingEnemy.speed e ->
  FencingEnemy.state e = FencingEnemy.m_moving_right ->
  FencingEnemy.x e <= Home.x (Game.home g) - Home.size (Game.home g) / 2 ->
  FencingEnemy.y e <= Home.y (Game.home g) - Home.size (Game.home g) / 2 ->
  (4 <= FencingEnemy.transitions n g e)%nat ->
  4 * Home.size (Game.home g) / FencingEnemy.speed e < INR n.
Proof.
  intros Hs H0 Hx Hy Ht.
  pose proof (FencingEnemy_lap_run g e Hs H0 Hx Hy n) as L.
  pose proof (FencingEnemy_ticks_split n g e) as N.
  unfold FencingEnemy.lap in L. cbv zeta in L. destruct L as [_ L].
  set (t := FencingEnemy.transitions n g e) in *.
  set (m := FencingEnemy.moves n g e) in *.
  destruct t as [|[|[|[|t]]]]; try lia.
  assert (I : INR m + 4 <= INR n).
  { rewrite <- N, plus_INR.
    assert (I4 : INR 4 <= INR (S (S (S (S t))))) by (apply le_INR; lia).
    cbn [INR] in I4 |- *. lra. }
  apply Rmult_lt_reg_r with (FencingEnemy.speed e); [assumption|].
  replace (4 * Home.size (Game.home g) / FencingEnemy.speed e *
           FencingEnemy.speed e)
    with (4 * Home.size (Game.home g)) by (field; lra).
  nra.
Qed.

(** X17.  Laps repeat: the tick of the fourth transition of a lap leaves the
    fencer in state moving-right at or beyond the corner of home, at the
    same speed, so that the lap that follows again takes more than
    [4 * size / speed] ticks. *)
Theorem FencingEnemy_next_lap
  (g : Game.t) (e0 : FencingEnemy.t) (n : nat) :
  0 < FencingEnemy.speed e0 ->
  FencingEnemy.state e0 = FencingEnemy.m_moving_right ->
  FencingEnemy.x e0 <= Home.x (Game.home g) - Home.size (Game.home g) / 2 ->
  FencingEnemy.y e0 <= Home.y (Game.home g) - Home.size (Game.home g) / 2 ->
  FencingEnemy.transitions n g e0 = 3%nat ->
  FencingEnemy.transitions (S n) g e0 = 4%nat ->
  let e := FencingEnemy.run (S n) g e0 in
  FencingEnemy.speed e = FencingEnemy.speed e0 /\
  FencingEnemy.state e = FencingEnemy.m_moving_right /\
  FencingEnemy.x e <= Home.x (Game.home g) - Home.size (Game.home g) / 2 /\
  FencingEnemy.y e <= Home.y (Game.home g) - Home.size (Game.home g) / 2 /\
  (forall m : nat,
      (4 <= FencingEnemy.transitions m g e)%nat ->
      4 * Home.size (Game.home g) / FencingEnemy.speed e0 < INR m).
Proof.
  intros Hs H0 Hx Hy T3 T4. cbv zeta.
  destruct (FencingEnemy_lap_restarts g e0 n Hs H0 Hx Hy T3 T4)
    as (Sp & St & X & Y).
  pose proof (FencingEnemy_run_speed (S n) g e0) as E.
  repeat split; try assumption.
  intros m Hm. rewrite <- E. now apply FencingEnemy_lap_cost.
Qed.

Lemma FencingEnemy_next_lap_witness :
  FencingEnemy.state (FencingEnemy.run 8 Sample.small_home Sample.fencer) =
    FencingEnemy.m_moving_right /\
  FencingEnemy.x (FencingEnemy.run 8 Sample.small_home Sample.fencer)
    <= 700 - 2 / 2.
Proof.
  destruct (FencingEnemy_next_lap Sample.small_home Sample.fencer 7)
    as (_ & St & X & _).
  - cbn. lra.
  - reflexivity.
  - cbn. lra.
  - cbn. lra.
  - cbn [FencingEnemy.transitions FencingEnemy.run].
    fencer_ticks. reflexivity.
  - cbn [FencingEnemy.transitions FencingEnemy.run].
    fencer_ticks. reflexivity.
  - split; [exact St | exact X].
Defined.

(** ** What a tick of an enemy leaves alone *)

Lemma Game_game_over_lose_keeps (g : Game.t) :
  Game.player (Game.game_over_lose g) = Game.player g /\
  Game.home (Game.game_over_lose g) = Game.home g /\
  Game.waypoint (Game.game_over_lose g) = Game.waypoint g.
Proof. repeat split. Qed.

Lemma Game_lose_signalled_iff (g : Game.t) (hit : bool) :
  Game.signalled "You Lose" (if hit then Game.game_over_lose g else g) <->
  hit = true \/ Game.signalled "You Lose" g.
Proof.
  destruct hit.
  - split; [now left|]. intros _. split; [reflexivity|].
    cbn. apply in_or_app. right. now left.
  - split; [now right|]. intros [H | H]; [discriminate | exact H].
Qed.

Lemma enemy_tick_frame_intro (g : Game.t) (b b' : Enemy.t) :
  Enemy.size b' = Enemy.size b ->
  Enemy.color b' = Enemy.color b ->
  enemy_tick_frame g
    (if Enemy.hits_player g b' then Game.game_over_lose g else g) b b'.
Proof.
  intros Sz Co. unfold enemy_tick_frame.
  split; [|split; [|split]];
    try (destruct (Enemy.hits_player g b'); reflexivity).
  split; [exact Sz|]. split; [exact Co|].
  apply Game_lose_signalled_iff.
Qed.

Lemma Enemy_walk_random_advance_keeps
  (g : Game.t) (e : Enemy_walk_random.t) :
  Enemy.size (Enemy_walk_random.base (Enemy_walk_random.advance g e)) =
    Enemy.size (Enemy_walk_random.base e) /\
  Enemy.color (Enemy_walk_random.base (Enemy_walk_random.advance g e)) =
    Enemy.color (Enemy_walk_random.base e).
Proof.
  destruct e as [[bx b_y bs bc] s sh v].
  destruct s, sh; walker_step; split; reflexivity.
Qed.

Lemma FencingEnemy_advance_keeps (g : Game.t) (e : FencingEnemy.t) :
  Enemy.size (FencingEnemy.base (FencingEnemy.advance g e)) =
    Enemy.size (FencingEnemy.base e) /\
  Enemy.color (FencingEnemy.base (FencingEnemy.advance g e)) =
    Enemy.color (FencingEnemy.base e).
Proof.
  destruct (FencingEnemy_advance_cases g e) as [(_ & E & _) | (_ & E & _)];
    rewrite E; split; reflexivity.
Qed.

(** X18.  The tick of an enemy of any of the four kinds leaves the player,
    the home and the waypoint where they are and the enemy's size and color
    as they were, and after it the loss is signalled exactly when the enemy,
    at the position the tick took it to, hits the player (or the loss was
    signalled before). *)
Theorem Enemy_update_frame
  (g : Game.t) (w : Enemy_walk_random.t) (c : Chasing_Enemy.t)
  (f : FencingEnemy.t) (s : Stealth_Circle.t) :
  enemy_tick_frame g
    (fst (Enemy_walk_random.update g w))
    (Enemy_walk_random.base w)
    (Enemy_walk_random.base (snd (Enemy_walk_random.update g w))) /\
  enemy_tick_frame g
    (fst (Chasing_Enemy.update g c))
    (Chasing_Enemy.base c)
    (Chasing_Enemy.base (snd (Chasing_Enemy.update g c))) /\
  enemy_tick_frame g
    (fst (FencingEnemy.update g f))
    (FencingEnemy.base f)
    (FencingEnemy.base (snd (FencingEnemy.update g f))) /\
  enemy_tick_frame g
    (fst (Stealth_Circle.update g s))
    (Stealth_Circle.base s)
    (Stealth_Circle.base (snd (Stealth_Circle.update g s))).
Proof.
  split; [|split; [|split]].
  - destruct (Enemy_walk_random_advance_keeps g w) as [Sz Co].
    pose proof (enemy_tick_frame_intro g _ _ Sz Co) as F.
    unfold Enemy_walk_random.update.
    destruct (Enemy.hits_player g _); exact F.
  - destruct (Chasing_Enemy_step_keeps g c) as [Sz Co].
    pose proof (enemy_tick_frame_intro g _ _ Sz Co) as F.
    unfold Chasing_Enemy.update.
    destruct (Enemy.hits_player g _); exact F.
  - destruct (FencingEnemy_advance_keeps g f) as [Sz Co].
    pose proof (enemy_tick_frame_intro g _ _ Sz Co) as F.
    unfold FencingEnemy.update.
    destruct (Enemy.hits_player g _); exact F.
  - destruct (Stealth_Circle_update_detected g s) as (_ & B & _ & G).
    rewrite B, G. apply enemy_tick_frame_intro; reflexivity.
Qed.

(** ** Winning and losing on one round *)

Lemma Player_update_win_text (g : Game.t) :
  Home.contains (Game.home g) (Player.x g) (Player.y g) = true ->
  Game.stopped (Player.update g) = true /\
  Game.texts (Player.update g) = Game.texts g ++ ["You Win"%string].
Proof.
  intros H. unfold Player.update. rewrite H.
  destruct (Waypoint.is_active (Game.waypoint (Game.game_over_win g)));
    [destruct (Rlt_b _ _)|]; split; reflexivity.
Qed.

(** X19.  Nothing keeps a game that is won from being lost: when the player
    is in home at its tick and a fencer, ticking next, hits the player, both
    banners are drawn, "You Win" and then "You Lose". *)
Theorem Player_wins_and_fencer_hits (g : Game.t) (e : FencingEnemy.t) :
  Home.contains (Game.home g) (Player.x g) (Player.y g) = true ->
  Enemy.hits_player (Player.update g)
    (FencingEnemy.base (FencingEnemy.advance (Player.update g) e)) = true ->
  let g2 := fst (FencingEnemy.update (Player.update g) e) in
  Game.stopped g2 = true /\
  Game.texts g2 = Game.texts g ++ ["You Win"; "You Lose"]%string.
Proof.
  intros H Hit. cbv zeta.
  destruct (Player_update_win_text g H) as [_ T].
  unfold FencingEnemy.update. rewrite Hit. cbn [fst].
  split; [reflexivity|].
  unfold Game.game_over_lose, Game.create_text, Game.stop. cbn.
  rewrite T, <- app_assoc. reflexivity.
Qed.

Lemma Player_wins_and_fencer_hits_witness :
  Game.texts
    (fst (FencingEnemy.update (Player.update Sample.home_corner)
            Sample.corner_fencer)) = ["You Win"; "You Lose"]%string.
Proof.
  assert (H : Home.contains (Game.home Sample.home_corner)
                (Player.x Sample.home_corner) (Player.y Sample.home_corner)
              = true)
    by (unfold Home.contains; cbn; Rcompare; reflexivity).
  destruct (Player_wins_and_fencer_hits Sample.home_corner
              Sample.corner_fencer H) as [_ T].
  - assert (U : Player.update Sample.home_corner =
                Game.game_over_win Sample.home_corner)
      by (unfold Player.update; rewrite H; reflexivity).
    rewrite U. unfold Enemy.hits_player, FencingEnemy.advance. cbn.
    unfold FencingEnemy.moving_right. cbn. Rcompare. cbn. Rcompare.
    reflexivity.
  - exact T.
Defined.

(** ** A new game *)

Lemma init_game_cases (canvwidth canvheight : R)
  (screen_width screen_height : Z) :
  ((screen_width = 1 \/ screen_height = 1)%Z /\
   TurtleAdventureGame.init_game canvwidth canvheight
     screen_width screen_height = Python.Raise Python.ZeroDivisionError)
  \/
  (screen_width <> 1%Z /\ screen_height <> 1%Z /\
   TurtleAdventureGame.init_game canvwidth canvheight
     screen_width screen_height =
   Python.Return
     (Game.mk
        (Waypoint.mk 0 0 false)
        (Home.mk (IZR (screen_width - 100)) (IZR (screen_height / 2)) 20)
        (Player_state.mk (RawTurtle.mk 50 (IZR (screen_height / 2)) 0) 5)
        (IZR screen_width) (IZR screen_height) false [])).
Proof.
  unfold TurtleAdventureGame.init_game, TurtleScreen.setworldcoordinates,
    Python.truediv.
  destruct (Rneq_b (IZR (screen_width - 1) - 0) 0) eqn:X.
  - apply Rneq_b_true in X.
    assert (Wn : screen_width <> 1%Z).
    { intros ->. apply X. cbn. lra. }
    cbn [Python.bind].
    destruct (Rneq_b (0 - IZR (screen_height - 1)) 0) eqn:Y.
    + apply Rneq_b_true in Y. right. split; [exact Wn|]. split.
      * intros ->. apply Y. cbn. lra.
      * reflexivity.
    + apply Rneq_b_false in Y. left. split; [|reflexivity].
      right. assert (E : IZR (screen_height - 1) = 0) by lra.
      apply eq_IZR in E. lia.
  - apply Rneq_b_false in X. left. split; [|reflexivity].
    left. assert (E : IZR (screen_width - 1) = 0) by lra.
    apply eq_IZR in E. lia.
Qed.

Lemma init_game_in_home (screen_width screen_height : Z) :
  let g :=
    Game.mk
      (Waypoint.mk 0 0 false)
      (Home.mk (IZR (screen_width - 100)) (IZR (screen_height / 2)) 20)
      (Player_state.mk (RawTurtle.mk 50 (IZR (screen_height / 2)) 0) 5)
      (IZR screen_width) (IZR screen_height) false [] in
  Home.contains (Game.home g) (Player.x g) (Player.y g) = true <->
  (140 <= screen_width <= 160)%Z.
Proof.
  cbv zeta. unfold Home.contains. cbn.
  rewrite !andb_true_iff, !Rle_b_true, minus_IZR.
  split.
  - intros [[A B] _]. split; apply le_IZR; lra.
  - intros [A B]. apply IZR_le in A. apply IZR_le in B. lra.
Qed.

(** X20.  [init_game] raises [ZeroDivisionError] exactly when the screen is
    1 wide or 1 high (a span of the world coordinates is then zero).  In the
    world it returns otherwise, the game is won on the player's first tick
    exactly when the screen is between 140 and 160 wide (the player then
    starts inside home); on any other screen the first tick of the player
    changes nothing. *)
Theorem init_game_first_tick (canvwidth canvheight : R)
  (screen_width screen_height : Z) :
  ((exists exn : Python.exception,
       TurtleAdventureGame.init_game canvwidth canvheight
         screen_width screen_height = Python.Raise exn) <->
   (screen_width = 1 \/ screen_height = 1)%Z) /\
  ((exists g : Game.t,
       TurtleAdventureGame.init_game canvwidth canvheight
         screen_width screen_height = Python.Return g) <->
   (screen_width <> 1 /\ screen_height <> 1)%Z) /\
  (forall g : Game.t,
      TurtleAdventureGame.init_game canvwidth canvheight
        screen_width screen_height = Python.Return g ->
      (Game.signalled "You Win" (Player.update g) <->
         (140 <= screen_width <= 160)%Z) /\
      (~ (140 <= screen_width <= 160)%Z -> Player.update g = g)).
Proof.
  pose proof (init_game_in_home screen_width screen_height) as I.
  cbv zeta in I.
  destruct (init_game_cases canvwidth canvheight screen_width screen_height)
    as [[Bad E] | (Wn & Hn & E)]; rewrite E.
  - split; [|split].
    + split; [intros _; exact Bad | intros _; now eexists].
    + split; [intros [g G]; discriminate G | intros [Wn Hn]; lia].
    + intros g G. discriminate G.
  - split; [|split].
    + split; [intros [exn X]; discriminate X | intros B; lia].
    + split; [intros _; now split | intros _; now eexists].
    + intros g [= <-].
      match goal with |- context [Player.update ?w] => set (g := w) in * end.
      destruct (Home.contains (Game.home g) (Player.x g) (Player.y g)) eqn:C.
      * split.
        -- split; [intros _; now apply I|].
           intros _. now apply Player_update_signals_win.
        -- intros N. exfalso. apply N. now apply I.
      * split.
        -- split.
           ++ intros [_ T].
              destruct (Player_update_outside_home g C) as [_ T'].
              rewrite T' in T. destruct T.
           ++ intros W. apply I in W. discriminate.
        -- intros _. unfold Player.update. rewrite C. reflexivity.
Qed.

Lemma init_game_first_tick_witness :
  exists g : Game.t,
    TurtleAdventureGame.init_game 780 480 800 500 = Python.Return g /\
    Player.update g = g.
Proof.
  destruct (init_game_first_tick 780 480 800 500) as (_ & R & T).
  destruct (proj2 R) as [g G]; [lia|].
  exists g. split; [exact G|].
  apply (proj2 (T g G)). lia.
Defined.

(** ** What the generator puts on the playfield *)

Lemma all_built_map {A I : Type} (P : A -> Prop)
  (f : I -> constructed A) (l : list I) :
  (forall i, exists e, f i = Built e /\ P e) ->
  EnemyGenerator.all_built P (List.map f l).
Proof.
  intros H. unfold EnemyGenerator.all_built.
  apply Forall_forall. intros c Hin.
  apply in_map_iff in Hin. destruct Hin as (i & <- & _). apply H.
Qed.

(** X21.  [create_random_enemy] builds five walkers, and on a playfield at
    least 600 wide and 493 high each of them, wherever the draws put it,
    stays about the playfield for ever: [1 - speed <= x <= width + 1 + speed]
    and [1 - speed <= y <= height + 1 + speed] after any number of ticks. *)
Theorem EnemyGenerator_walkers_stay_about (g : Game.t) (rand : nat -> Z) :
  600 <= Game.screen_width g ->
  493 <= Game.screen_height g ->
  EnemyGenerator.walker_draws rand ->
  length (EnemyGenerator.create_random_enemy rand) = 5%nat /\
  EnemyGenerator.all_built
    (fun e =>
       6 <= Enemy_walk_random.speed e <= 10 /\
       forall n : nat,
         let e' := Enemy_walk_random.run n g e in
         1 - Enemy_walk_random.speed e <= Enemy_walk_random.x e'
           <= Game.screen_width g + 1 + Enemy_walk_random.speed e /\
         1 - Enemy_walk_random.speed e <= Enemy_walk_random.y e'
           <= Game.screen_height g + 1 + Enemy_walk_random.speed e)
    (EnemyGenerator.create_random_enemy rand).
Proof.
  intros HW HH Draws. split; [reflexivity|].
  apply all_built_map. intros i.
  destruct (Draws i) as ([S1 S2] & [X1 X2] & [Y1 Y2]).
  apply IZR_le in S1, S2, X1, X2, Y1, Y2.
  eexists. split; [reflexivity|]. cbn - [Nat.mul].
  split; [lra|]. intros n.
  match goal with |- context [Enemy_walk_random.run n g ?e] =>
    set (e0 := e) end.
  assert (B : Enemy_walk_random.bouncing g e0)
    by (unfold Enemy_walk_random.bouncing, e0; cbn - [Nat.mul]; lra).
  assert (Hv : 1 <= Enemy_walk_random.speed e0) by (unfold e0; cbn - [Nat.mul]; lra).
  destruct (Enemy_walk_random_run_bouncing g e0 n) as [IB IS];
    try assumption; try lra.
  rewrite <- IS in Hv.
  pose proof (Enemy_walk_random_bouncing_bounds g _ Hv IB) as Bd.
  rewrite IS in Bd. exact Bd.
Qed.

Lemma Sample_draws_in_range : EnemyGenerator.walker_draws Sample.draws.
Proof.
  intros i. unfold Sample.draws.
  replace (Nat.modulo (3 * i) 3) with 0%nat
    by (symmetry; rewrite Nat.mul_comm; apply Nat.Div0.mod_mul).
  replace (Nat.modulo (S (3 * i)) 3) with 1%nat
    by (symmetry; replace (S (3 * i)) with (1 + i * 3)%nat by lia;
        rewrite Nat.Div0.mod_add; reflexivity).
  replace (Nat.modulo (S (S (3 * i))) 3) with 2%nat
    by (symmetry; replace (S (S (3 * i))) with (2 + i * 3)%nat by lia;
        rewrite Nat.Div0.mod_add; reflexivity).
  lia.
Defined.

Lemma EnemyGenerator_walkers_stay_about_witness :
  length (EnemyGenerator.create_random_enemy Sample.draws) = 5%nat.
Proof.
  apply (EnemyGenerator_walkers_stay_about Sample.idle Sample.draws).
  - cbn. lra.
  - cbn. lra.
  - exact Sample_draws_in_range.
Defined.

(** X22.  [create_chasing_enemy] builds four chasers, and each of them,
    wherever the draws put it, catches a player who stands still: after some
    number of ticks its tick signals the loss. *)
Theorem EnemyGenerator_chasers_catch (g : Game.t) (rand : nat -> Z) :
  length (EnemyGenerator.create_chasing_enemy rand) = 4%nat /\
  EnemyGenerator.all_built
    (fun e =>
       exists n : nat,
         Game.signalled "You Lose"
           (fst (Chasing_Enemy.update g (Chasing_Enemy.run n g e))))
    (EnemyGenerator.create_chasing_enemy rand).
Proof.
  split; [reflexivity|].
  apply all_built_map. intros i.
  eexists. split; [reflexivity|].
  match goal with |- context [Chasing_Enemy.run _ g ?e] => set (e0 := e) end.
  destruct (INR_unbounded (Chasing_Enemy.distance g e0 / 1.2)) as [N HN].
  destruct (Chasing_Enemy_catches_from g N e0) as [n H].
  - unfold e0. cbn. lra.
  - apply Rmult_lt_compat_r with (r := 1.2) in HN; [|lra].
    replace (Chasing_Enemy.distance g e0 / 1.2 * 1.2)
      with (Chasing_Enemy.distance g e0) in HN by (field; lra).
    lra.
  - exists n. now apply Chasing_Enemy_update_loses.
Qed.

(** X23.  [create_stealth_circle] builds five sentinels, each dormant and
    shown white, with a hit-box that fits in its detection circle: whatever
    the world, a tick on which such a sentinel hits the player leaves it
    alerted. *)
Theorem EnemyGenerator_sentinels_alert (rand : nat -> Z) :
  length (EnemyGenerator.create_stealth_circle rand) = 5%nat /\
  EnemyGenerator.all_built
    (fun e =>
       Stealth_Circle.detected e = false /\
       Stealth_Circle.lit e /\
       forall g : Game.t,
         Enemy.hits_player g (Stealth_Circle.base e) = true ->
         Stealth_Circle.detected (snd (Stealth_Circle.update g e)) = true)
    (EnemyGenerator.create_stealth_circle rand).
Proof.
  split; [reflexivity|].
  apply all_built_map. intros i.
  eexists. split; [reflexivity|].
  split; [reflexivity|]. split; [reflexivity|].
  intros g Hit.
  match goal with |- context [Stealth_Circle.update g ?e] => set (e0 := e) end.
  destruct (Stealth_Circle_update_detected g e0) as (D & _).
  rewrite D. apply Rlt_b_true.
  pose proof (Enemy_hits_player_within g _ Hit) as W.
  pose proof sqrt2_ge_1 as S2.
  assert (Fit : 50 / sqrt 2 <= 100).
  { apply Rmult_le_reg_r with (sqrt 2); [lra|].
    replace (50 / sqrt 2 * sqrt 2) with 50 by (field; lra). nra. }
  unfold Stealth_Circle.distance, Stealth_Circle.x, Stealth_Circle.y.
  cbn in W |- *. lra.
Qed.

(** X24.  [create_fencing_enemy] builds three fencers, of speeds 1, 3 and 4,
    and around a home of size at least 0 each of them walks the perimeter for
    ever, never stalls, and needs more than [4 * size / speed] ticks for its
    first four transitions. *)
Theorem EnemyGenerator_fencers_patrol (g : Game.t) :
  0 <= Home.size (Game.home g) ->
  length (EnemyGenerator.create_fencing_enemy g) = 3%nat /\
  EnemyGenerator.all_built
    (fun e =>
       0 < FencingEnemy.speed e /\
       (forall n : nat, FencingEnemy.on_side g (FencingEnemy.run n g e)) /\
       (forall t : nat, exists n : nat, FencingEnemy.transitions n g e = t) /\
       (forall n : nat,
           (4 <= FencingEnemy.transitions n g e)%nat ->
           4 * Home.size (Game.home g) / FencingEnemy.speed e < INR n))
    (EnemyGenerator.create_fencing_enemy g).
Proof.
  intros Hh. split; [reflexivity|].
  assert (K : forall s : R, 0 < s ->
    exists e, EnemyGenerator.fencer_at_corner g s = Built e /\
      (0 < FencingEnemy.speed e /\
       (forall n : nat, FencingEnemy.on_side g (FencingEnemy.run n g e)) /\
       (forall t : nat, exists n : nat, FencingEnemy.transitions n g e = t) /\
       (forall n : nat,
           (4 <= FencingEnemy.transitions n g e)%nat ->
           4 * Home.size (Game.home g) / FencingEnemy.speed e < INR n))).
  { intros s Hs. eexists. split; [reflexivity|].
    match goal with |- context [FencingEnemy.run _ g ?e] => set (e0 := e) end.
    assert (Sp : FencingEnemy.speed e0 = s) by reflexivity.
    rewrite Sp. split; [exact Hs|]. split; [|split].
    - intros n. apply FencingEnemy_run_on_side; [now rewrite Sp | exact Hh |].
      unfold FencingEnemy.on_side, e0. cbn. lra.
    - intros t. apply FencingEnemy_patrol_goes_on. now rewrite Sp.
    - intros n Ht. rewrite <- Sp.
      apply FencingEnemy_lap_cost; try assumption;
        try (now rewrite Sp); unfold e0; cbn; try reflexivity; lra. }
  unfold EnemyGenerator.all_built, EnemyGenerator.create_fencing_enemy.
  repeat constructor; apply K; lra.
Qed.

Lemma EnemyGenerator_fencers_patrol_witness :
  length (EnemyGenerator.create_fencing_enemy Sample.idle) = 3%nat.
Proof.
  apply (EnemyGenerator_fencers_patrol Sample.idle). cbn. lra.
Defined.

(** ** A click *)

(** X25.  A click sets the player off to the clicked point, whatever the
    waypoint was before: at a positive speed, some number of ticks after a
    click at [(x, y)] the waypoint is inactive again and the player is
    closer to [(x, y)] than [speed]. *)
Theorem on_click_reaches (g : Game.t) (x y : R) :
  0 < Player.speed g ->
  exists n : nat,
    let g' := Player.run n (TurtleAdventureGame.on_click x y g) in
    Waypoint.is_active (Game.waypoint g') = false /\
    hypot (x - Player.x g') (y - Player.y g') < Player.speed g.
Proof.
  intros Hs.
  destruct (Player_run_reaches (TurtleAdventureGame.on_click x y g))
    as (n & I & C).
  - exact Hs.
  - reflexivity.
  - exists n. cbv zeta. split; [exact I | exact C].
Qed.

Lemma on_click_reaches_witness :
  exists n : nat,
    Waypoint.is_active
      (Game.waypoint
         (Player.run n (TurtleAdventureGame.on_click 300 400 Sample.idle)))
    = false.
Proof.
  destruct (on_click_reaches Sample.idle 300 400) as (n & I & _).
  - cbn. lra.
  - exists n. exact I.
Defined.
